(** * Inline watch expressions: a shallow embedding of src/src/extension.ts

    The VS Code extension keeps two JavaScript [Map]s of watched values,
    observes the debug-adapter protocol, finds where watched expressions
    occur in the active document with a regular expression, and turns the
    occurrences into decorations.  This file embeds that code:

    - characters are Latin-1 code units ([ascii]); the document text is a
      [list ascii] with ["\n"] line breaks;
    - the boundary regular expression of [getExpressionLocations] is
      embedded as the backtracking search the JavaScript engine performs;
    - the JavaScript objects of type [WatchedValue] live in a heap
      ([gmap nat]), so that the aliasing between [expression.value] and
      [expression.request] is modelled;
    - the JavaScript [Map]s keep their insertion order and are association
      lists with the [Map.prototype.set] semantics;
    - [debounce] runs against a model of the host's timer queue. *)

From Stdlib Require Import Ascii String List Arith Lia Bool Sorting.Permutation
  Sorting.Sorted.
From stdpp Require Import base gmap strings list.
Import ListNotations.
Open Scope nat_scope.

(* ------------------------------------------------------------------ *)
(** ** Characters *)

(** JavaScript [\s] (and the set removed by [trimStart]/[trimEnd]):
    white space and line terminators, restricted to Latin-1. *)
Definition is_ws (c : ascii) : bool :=
  let n := nat_of_ascii c in
  (9 <=? n) && (n <=? 13) || (n =? 32) || (n =? 160).

(** JavaScript [\w]: [A-Za-z0-9_]. *)
Definition is_word (c : ascii) : bool :=
  let n := nat_of_ascii c in
  (48 <=? n) && (n <=? 57) || (65 <=? n) && (n <=? 90)
  || (97 <=? n) && (n <=? 122) || (n =? 95).

Definition nl : ascii := ascii_of_nat 10.
Definition bar : ascii := "|"%char.

Definition char_eqb (a b : ascii) : bool := Ascii.eqb a b.

(** [s[i]] as a word character; out of range counts as a non-word. *)
Definition word_at (s : list ascii) (i : nat) : bool :=
  match nth_error s i with Some c => is_word c | None => false end.

Definition ws_at (s : list ascii) (i : nat) : bool :=
  match nth_error s i with Some c => is_ws c | None => false end.

(** The zero-width assertion [\b] at index [i]. *)
Definition boundary_at (s : list ascii) (i : nat) : bool :=
  match i with
  | 0 => word_at s 0
  | S i' => xorb (word_at s i') (word_at s i)
  end.

(** The literal [escapeRegExp(expression)] matches at index [i]. *)
Fixpoint prefix_of (e s : list ascii) : bool :=
  match e, s with
  | [], _ => true
  | c :: e', d :: s' => char_eqb c d && prefix_of e' s'
  | _ :: _, [] => false
  end.

Definition lit_at (s : list ascii) (i : nat) (e : list ascii) : bool :=
  prefix_of e (skipn i s).

(* ------------------------------------------------------------------ *)
(** ** The boundary matcher (extension.ts, lines 68-78)

    [new RegExp('(\\s|\\b)' + escapeRegExp(expression)
                + '(\\s|\\b|[|]|(|))', 'gm')]

    The leading group tries [\s] first and then [\b].  The trailing group
    has four alternatives tried in this order: [\s], [\b], the character
    class [[|]] (a single ["|"]), and the group [(|)], which matches the
    empty string.  The trailing group is the last item of the pattern, so
    its first successful alternative is final. *)

(** End index of the trailing group started at index [j]. *)
Definition suffix_end (s : list ascii) (j : nat) : nat :=
  if ws_at s j then S j
  else if boundary_at s j then j
  else match nth_error s j with
       | Some c => if char_eqb c bar then S j else j
       | None => j
       end.

(** A match attempt starting at index [i]: the end index, if any. *)
Definition match_at (s : list ascii) (e : list ascii) (i : nat) : option nat :=
  if ws_at s i && lit_at s (S i) e then Some (suffix_end s (S i + length e))
  else if boundary_at s i && lit_at s i e then Some (suffix_end s (i + length e))
  else None.

(** [RegExp.prototype.exec] from [lastIndex]: the first start index
    [i >= lastIndex] (up to [length s]) where an attempt succeeds. *)
Fixpoint exec_from (s e : list ascii) (i fuel : nat) : option (nat * nat) :=
  match fuel with
  | 0 => None
  | S f =>
      match match_at s e i with
      | Some j => Some (i, j)
      | None => exec_from s e (S i) f
      end
  end.

Definition regex_exec (s e : list ascii) (lastIndex : nat) : option (nat * nat) :=
  if length s <? lastIndex then None
  else exec_from s e lastIndex (S (length s - lastIndex)).

(** The [while ((match = regex.exec(haystack)))] loop.  After a match
    [lastIndex] becomes its end; an empty match leaves [lastIndex] where it
    was, so the source loop then repeats forever: [None] stands for that
    divergence (and for running out of [fuel]). *)
Fixpoint exec_loop (fuel : nat) (s e : list ascii) (lastIndex : nat)
  : option (list (nat * nat)) :=
  match fuel with
  | 0 => None
  | S f =>
      match regex_exec s e lastIndex with
      | None => Some []
      | Some (i, j) =>
          if j =? i then None
          else match exec_loop f s e j with
               | Some ms => Some ((i, j) :: ms)
               | None => None
               end
      end
  end.

(** All matches [(index, end)]: a non-empty match ends after
    [lastIndex], so [length s + 2] rounds suffice. *)
Definition regex_matches (s e : list ascii) : option (list (nat * nat)) :=
  exec_loop (S (S (length s))) s e 0.

Definition sub (s : list ascii) (i n : nat) : list ascii := firstn n (skipn i s).

(* ------------------------------------------------------------------ *)
(** ** [escapeRegExp] (lines 22-24)

    [string.replace(/[.*+?^${}()|[\]\\]/g, '\\$&')]: every character of
    the class gets a backslash in front of it. *)

(** The characters of the class [[.*+?^${}()|[\]\\]], the last one a
    backslash. *)
Definition is_regex_special (c : ascii) : bool :=
  existsb (Ascii.eqb c) (list_ascii_of_string ".*+?^${}()|[]\").

Definition backslash : ascii := "\"%char.

Fixpoint escapeRegExp (s : list ascii) : list ascii :=
  match s with
  | [] => []
  | c :: s' =>
      if is_regex_special c then backslash :: c :: escapeRegExp s'
      else c :: escapeRegExp s'
  end.

(** How a pattern made of literal atoms reads as a regular expression:
    the identity escape [\c] of a syntax character [c] stands for [c], a
    character that is not a syntax character stands for itself; an
    unescaped syntax character, or a backslash before anything else, is not
    a literal atom ([None]).  This is the reading [lit_at] takes for
    [escapeRegExp(expression)]. *)
Fixpoint regex_literal_atoms (p : list ascii) : option (list ascii) :=
  match p with
  | [] => Some []
  | c :: p' =>
      if Ascii.eqb c backslash then
        match p' with
        | d :: p'' =>
            if is_regex_special d then option_map (cons d) (regex_literal_atoms p'')
            else None
        | [] => None
        end
      else if is_regex_special c then None
      else option_map (cons c) (regex_literal_atoms p')
  end.

(* ------------------------------------------------------------------ *)
(** ** Positions, ranges and the document (host API, vscode) *)

(** [vscode.Position]: (line, character). *)
Record Position := mkPos { line : nat; character : nat }.

Definition pos_lt (a b : Position) : bool :=
  (line a <? line b) || (line a =? line b) && (character a <? character b).

Definition pos_le (a b : Position) : bool := negb (pos_lt b a).

Definition pos_max (a b : Position) : Position := if pos_lt a b then b else a.
Definition pos_min (a b : Position) : Position := if pos_lt a b then a else b.

(** [vscode.Range] (and [vscode.Selection], a range). *)
Record Range := mkRangeRaw { r_start : Position; r_end : Position }.

(** [new vscode.Range(start, end)]: the constructor swaps its arguments
    when [start] is after [end]. *)
Definition new_Range (s e : Position) : Range :=
  if pos_le s e then mkRangeRaw s e else mkRangeRaw e s.

(** [range.intersection(other)] is [undefined] when the later start is
    after the earlier end, and otherwise a (truthy) range; this is its
    truthiness. *)
Definition intersects (range other : Range) : bool :=
  negb (pos_lt (pos_min (r_end other) (r_end range))
               (pos_max (r_start other) (r_start range))).

(** The document model of the extension host ([ExtHostDocumentData]): a
    document is its text as [document.getText()] returns it.  Line breaks
    are ["\r\n"], ["\r"] and ["\n"]; an offset between the ["\r"] and the
    ["\n"] of a ["\r\n"] lies past the end of its line. *)
Definition cr : ascii := ascii_of_nat 13.

(** [document.positionAt(offset)]: the line holding the offset, and the
    offset's distance from the line start clamped to the line's length; an
    offset past the end of the text gives the end of the last line. *)
Fixpoint pos_go (s : list ascii) (p ln col : nat) : Position :=
  match p, s with
  | 0, _ => mkPos ln col
  | S _, [] => mkPos ln col
  | S p', c :: s' =>
      if char_eqb c nl then pos_go s' p' (S ln) 0
      else if char_eqb c cr then
        match s' with
        | c' :: s'' =>
            if char_eqb c' nl then
              match p' with
              | 0 => mkPos ln col
              | S p'' => pos_go s'' p'' (S ln) 0
              end
            else pos_go s' p' (S ln) 0
        | [] => pos_go s' p' (S ln) 0
        end
      else pos_go s' p' ln (S col)
  end.

Definition positionAt (s : list ascii) (p : nat) : Position := pos_go s p 0 0.

(** [document.offsetAt(position)]: the character is clamped to the line
    length and a line past the last one to the end of the text; the
    offset is the line's start plus the character. *)
Fixpoint off_go (s : list ascii) (ln col acc : nat) : nat :=
  match s with
  | [] => acc
  | c :: s' =>
      if char_eqb c nl then
        match ln with
        | 0 => acc
        | S ln' => off_go s' ln' col (S acc)
        end
      else if char_eqb c cr then
        match ln with
        | 0 => acc
        | S ln' =>
            match s' with
            | c' :: s'' =>
                if char_eqb c' nl then off_go s'' ln' col (S (S acc))
                else off_go s' ln' col (S acc)
            | [] => off_go s' ln' col (S acc)
            end
        end
      else
        match ln with
        | 0 =>
            match col with
            | 0 => acc
            | S col' => off_go s' 0 col' (S acc)
            end
        | S _ => off_go s' ln col (S acc)
        end
  end.

Definition offsetAt (s : list ascii) (p : Position) : nat :=
  off_go s (line p) (character p) 0.

(** [document.lineAt(l).text.length], the length of line [l] without its
    line break; [lineAt] throws ([None]) for a line that does not exist. *)
Fixpoint line_length (s : list ascii) (l : nat) : option nat :=
  match s, l with
  | [], 0 => Some 0
  | [], S _ => None
  | c :: s', 0 =>
      if char_eqb c nl || char_eqb c cr then Some 0
      else option_map S (line_length s' 0)
  | c :: s', S l' =>
      if char_eqb c nl then line_length s' l'
      else if char_eqb c cr then
        match s' with
        | c' :: s'' => if char_eqb c' nl then line_length s'' l' else line_length s' l'
        | [] => line_length s' l'
        end
      else line_length s' l
  end.

(** [String.prototype.trimStart] and [trimEnd]. *)
Fixpoint trimStart (t : list ascii) : list ascii :=
  match t with
  | c :: t' => if is_ws c then trimStart t' else t
  | [] => []
  end.

Definition trimEnd (t : list ascii) : list ascii := rev (trimStart (rev t)).

Definition list_ascii_eqb (a b : list ascii) : bool :=
  if decide (a = b) then true else false.

(* ------------------------------------------------------------------ *)
(** ** Expression locations and decorations (lines 37-124) *)

Record ExpressionLocation := mkLoc {
  loc_expression : string;
  loc_value : string;
  loc_text : list ascii;
  loc_start : Position }.

Record Decoration := mkDeco {
  deco_range : Range;
  deco_before : string;
  deco_after : string }.

(** [text.trimStart() !== text ? text.length - text.trimStart().length : 0] *)
Definition prefixOffset (text : list ascii) : nat :=
  if list_ascii_eqb (trimStart text) text then 0
  else length text - length (trimStart text).

Definition suffixOffset (text : list ascii) : nat :=
  if list_ascii_eqb (trimEnd text) text then 0
  else length text - length (trimEnd text).

(** The end position after the roll-back of lines 100-103:
    [end.character - suffixOffset < 0] rolls to the end of the previous
    line, where [lineAt(end.line - 1)] throws when [end.line] is 0. *)
Definition end_position (doc : list ascii) (endp : Position) (suffix : nat)
  : option Position :=
  if character endp <? suffix then
    match line endp with
    | 0 => None
    | S l => option_map (mkPos l) (line_length doc l)
    end
  else Some (mkPos (line endp) (character endp - suffix)).

(** The callback of [.map] in [generateDecorators]. *)
Definition decorate (doc : list ascii) (loc : ExpressionLocation)
  : option Decoration :=
  let text := loc_text loc in
  let start := loc_start loc in
  let endp := positionAt doc (offsetAt doc start + length text) in
  let p := prefixOffset text in
  let q := suffixOffset text in
  match end_position doc endp q with
  | None => None
  | Some e =>
      Some (mkDeco (new_Range (mkPos (line start) (character start + p)) e)
                   "(" (" = " ++ loc_value loc ++ ")"))
  end.

(** [Array.prototype.sort] with the comparator
    [(a, b) => a.expression.length - b.expression.length].  The sort is
    stable and the comparator consistent, so its result is the one of this
    stable insertion sort. *)
Definition loc_key (l : ExpressionLocation) : nat := String.length (loc_expression l).

Fixpoint insert_loc (x : ExpressionLocation) (ls : list ExpressionLocation)
  : list ExpressionLocation :=
  match ls with
  | [] => [x]
  | y :: ys => if loc_key x <? loc_key y then x :: y :: ys else y :: insert_loc x ys
  end.

Definition sort_locs (ls : list ExpressionLocation) : list ExpressionLocation :=
  fold_left (fun acc x => insert_loc x acc) ls [].

(** [.map] whose callback may throw. *)
Fixpoint map_opt {A B} (f : A -> option B) (l : list A) : option (list B) :=
  match l with
  | [] => Some []
  | x :: l' =>
      match f x with
      | None => None
      | Some y => match map_opt f l' with Some ys => Some (y :: ys) | None => None end
      end
  end.

Definition generateDecorators (doc : list ascii) (locs : list ExpressionLocation)
  : option (list Decoration) :=
  map_opt (decorate doc) (sort_locs locs).

(* ------------------------------------------------------------------ *)
(** ** JavaScript [Map] with insertion order *)

Module JSMap.
Section JSMap.
Context {K V : Type} `{EqDecision K}.

Definition t := list (K * V).

(** [map.get(k)] *)
Fixpoint get (m : t) (k : K) : option V :=
  match m with
  | [] => None
  | (k', v) :: m' => if decide (k = k') then Some v else get m' k
  end.

(** [map.set(k, v)]: an existing key keeps its place, a new key goes last. *)
Fixpoint set (m : t) (k : K) (v : V) : t :=
  match m with
  | [] => [(k, v)]
  | (k', v') :: m' => if decide (k = k') then (k, v) :: m' else (k', v') :: set m' k v
  end.

Definition has (m : t) (k : K) : bool := if get m k then true else false.

Definition keys (m : t) : list K := map fst m.

End JSMap.
End JSMap.
Arguments JSMap.t : clear implicits.

(* ------------------------------------------------------------------ *)
(** ** Watched values and the store (lines 7-11, 126-137) *)

(** The evaluate response [body]: [body.error] (as its truthiness),
    [body.type] and [body.result].  The whole body becomes the value. *)
Record Body := mkBody { b_error : bool; b_type : string; b_result : string }.

(** [WatchedValue] *)
Record WatchedValue := mkWatched {
  w_expression : string;
  w_value : option Body;
  w_renderAt : list Range }.

Definition set_value (w : WatchedValue) (b : Body) : WatchedValue :=
  mkWatched (w_expression w) (Some b) (w_renderAt w).

Definition set_renderAt (w : WatchedValue) (rs : list Range) : WatchedValue :=
  mkWatched (w_expression w) (w_value w) rs.

(** [this.expression]: both maps hold references (heap locations) to the
    [WatchedValue] objects; [next_loc] allocates fresh objects. *)
Record Store := mkStore {
  heap : gmap nat WatchedValue;
  value_map : JSMap.t string nat;
  request_map : JSMap.t Z nat;
  next_loc : nat }.

Definition empty_store : Store := mkStore ∅ [] [] 0.

(** The result of a handler: the new store and whether it called
    [queueDecoratorUpdate]. *)
Definition Outcome := (Store * bool)%type.

(** [clearExpressions()] (lines 226-230); also [onWillStartSession] and
    [onWillStopSession]. *)
Definition clearExpressions (st : Store) : Outcome :=
  (mkStore (heap st) [] [] (next_loc st), true).

(** The reset command (lines 196-201). *)
Definition reset_command (st : Store) : Outcome * string :=
  (clearExpressions st, "Removed all watches").

(** The add command (lines 145-173), up to and including the
    synchronous part; [expression] is [editor.document.getText(editor.selection)].
    The third component tells whether
    [editor.debug.action.selectionToWatch] is executed. *)
Definition add_command (st : Store) (sel : Range) (expression : string)
  : Outcome * bool * string :=
  if String.eqb expression "" then ((st, false), false, "No expression selected")
  else match JSMap.get (value_map st) expression with
  | Some l =>
      match heap st !! l with
      | Some w =>
          let rs := List.filter (fun r => negb (intersects r sel)) (w_renderAt w) ++ [sel] in
          ((mkStore (<[l := set_renderAt w rs]> (heap st)) (value_map st)
                    (request_map st) (next_loc st), true), false, "Updated watch")
      | None => ((st, false), false, "Updated watch")
      end
  | None =>
      let l := next_loc st in
      ((mkStore (<[l := mkWatched expression None [sel]]> (heap st))
                (JSMap.set (value_map st) expression l)
                (request_map st) (S l), true), true, "Added watch")
  end.

(** The remove command (lines 175-194). *)
Definition remove_command (st : Store) (sel : Range) (expression : string)
  : Outcome * string :=
  if String.eqb expression "" then ((st, false), "No expression selected")
  else match JSMap.get (value_map st) expression with
  | Some l =>
      match heap st !! l with
      | Some w =>
          let rs := List.filter (fun r => negb (intersects r sel)) (w_renderAt w) in
          ((mkStore (<[l := set_renderAt w rs]> (heap st)) (value_map st)
                    (request_map st) (next_loc st), true), "Removed watch")
      | None => ((st, false), "Removed watch")
      end
  | None => ((st, false), "No watch found")
  end.

(** A protocol message, as far as the handlers read it. *)
Record Message := mkMsg {
  m_type : string;
  m_command : string;
  m_success : bool;
  m_seq : Z;
  m_request_seq : Z;
  m_arg_expression : string;
  m_arg_context : string;
  m_body : option Body }.

(** [onDidSendMessage] (lines 235-246): messages from the adapter.  A
    response to [evaluate] without a body makes [message.body.error] throw
    a TypeError: [None]. *)
Definition onDidSendMessage (st : Store) (m : Message) : option Outcome :=
  if String.eqb (m_type m) "response" && String.eqb (m_command m) "evaluate" then
    match m_body m with
    | None => None
    | Some b =>
        if b_error b then Some (st, false)
        else match JSMap.get (request_map st) (m_request_seq m) with
             | None => Some (st, false)
             | Some l =>
                 match heap st !! l with
                 | Some w =>
                     Some (mkStore (<[l := set_value w b]> (heap st)) (value_map st)
                                   (request_map st) (next_loc st), true)
                 | None => Some (st, false)
                 end
             end
    end
  else Some (st, false).

(** [onWillReceiveMessage] (lines 247-268): messages to the adapter. *)
Definition onWillReceiveMessage (st : Store) (m : Message) : Outcome :=
  if String.eqb (m_command m) "next" then clearExpressions st
  else if String.eqb (m_command m) "evaluate" && String.eqb (m_type m) "request"
          && String.eqb (m_arg_context m) "watch" then
    let expression := m_arg_expression m in
    match JSMap.get (value_map st) expression with
    | Some l =>
        (mkStore (heap st) (value_map st) (JSMap.set (request_map st) (m_seq m) l)
                 (next_loc st), false)
    | None =>
        let l := next_loc st in
        (mkStore (<[l := mkWatched expression None []]> (heap st))
                 (JSMap.set (value_map st) expression l)
                 (JSMap.set (request_map st) (m_seq m) l) (S l), false)
    end
  else (st, false).

(* ------------------------------------------------------------------ *)
(** ** Locations and the decoration pass (lines 49-81, 206-224) *)

(** The locations of one watched expression.  [watch.value!.result] of a
    watch without a value throws: [None]. *)
Definition locations_of (doc : list ascii) (expression : string) (w : WatchedValue)
  : option (list ExpressionLocation) :=
  match w_value w with
  | None => None
  | Some b =>
      let value := b_result b in
      match w_renderAt w with
      | _ :: _ =>
          Some (map (fun r => mkLoc expression value (list_ascii_of_string expression)
                                    (r_start r)) (w_renderAt w))
      | [] =>
          match regex_matches doc (list_ascii_of_string expression) with
          | None => None
          | Some ms =>
              Some (map (fun '(i, j) => mkLoc expression value (sub doc i (j - i))
                                              (positionAt doc i)) ms)
          end
      end
  end.

Fixpoint getExpressionLocations (doc : list ascii)
  (expressions : list (string * WatchedValue)) : option (list ExpressionLocation) :=
  match expressions with
  | [] => Some []
  | (e, w) :: rest =>
      match locations_of doc e w with
      | None => None
      | Some ls =>
          match getExpressionLocations doc rest with
          | Some ls' => Some (ls ++ ls')
          | None => None
          end
      end
  end.

(** [this.expression.value.entries()], following the references. *)
Definition entries (st : Store) : list (string * WatchedValue) :=
  omap (fun '(k, l) => (fun w => (k, w)) <$> heap st !! l) (value_map st).

(** [watch.value?.result] is truthy. *)
Definition has_result (w : WatchedValue) : bool :=
  match w_value w with
  | Some b => negb (String.eqb (b_result b) "")
  | None => false
  end.

(** [updateDecorators()] on the active editor's document. *)
Definition updateDecorators (st : Store) (doc : list ascii) : option (list Decoration) :=
  match getExpressionLocations doc (List.filter (fun '(_, w) => has_result w) (entries st)) with
  | None => None
  | Some locs => generateDecorators doc locs
  end.

(** Example 1 of the description. *)
Definition ex_doc : list ascii := list_ascii_of_string "x = 1
y = x + 2".

Definition ex_store : Store :=
  mkStore {[ 0 := mkWatched "x" (Some (mkBody false "int" "1")) [] ]} [("x", 0)] [] 1.

(* ------------------------------------------------------------------ *)
(** ** [debounce] and the host timers (lines 29-35, 204)

    [debounce(func, ms)] keeps the handle of its last timer in the closure
    variable [timeout]; each call runs [clearTimeout(timeout)] and then
    [timeout = setTimeout(func, ms)].  The host keeps a list of pending
    timers (handle, deadline) and may fire a timer once its deadline has
    passed.  Events: a call of the debounced function, time passing, and
    the host firing one timer.  The log records calls ([Trig]) and runs of
    [func] ([Run]) with their times. *)

Module Debounce.

Record Timers := mkTimers {
  now : nat;
  pending : list (nat * nat);
  next_id : nat;
  timeout : option nat }.

Definition init : Timers := mkTimers 0 [] 0 None.

Inductive Event := Call | Advance (d : nat) | FireTimer (id : nat).

Inductive Act := Trig | Run.

(** [clearTimeout(handle)]; [clearTimeout(undefined)] does nothing. *)
Definition clearTimeout (ts : list (nat * nat)) (h : option nat) : list (nat * nat) :=
  match h with
  | None => ts
  | Some id => List.filter (fun '(i, _) => negb (i =? id)) ts
  end.

Fixpoint deadline_of (ts : list (nat * nat)) (id : nat) : option nat :=
  match ts with
  | [] => None
  | (i, d) :: ts' => if i =? id then Some d else deadline_of ts' id
  end.

Definition step (ms : nat) (st : Timers) (ev : Event)
  : option (Timers * list (nat * Act)) :=
  match ev with
  | Call =>
      let ts := clearTimeout (pending st) (timeout st) in
      let id := next_id st in
      Some (mkTimers (now st) (ts ++ [(id, now st + ms)]) (S id) (Some id),
            [(now st, Trig)])
  | Advance d => Some (mkTimers (now st + d) (pending st) (next_id st) (timeout st), [])
  | FireTimer id =>
      match deadline_of (pending st) id with
      | Some d =>
          if d <=? now st then
            Some (mkTimers (now st) (List.filter (fun '(i, _) => negb (i =? id)) (pending st))
                           (next_id st) (timeout st), [(now st, Run)])
          else None
      | None => None
      end
  end.

(** The states and logs reachable from the start. *)
Inductive reach (ms : nat) : Timers -> list (nat * Act) -> Prop :=
| reach_init : reach ms init []
| reach_step st log ev st' out :
    reach ms st log -> step ms st ev = Some (st', out) -> reach ms st' (log ++ out).

(** Runs a list of events from the start. *)
Fixpoint run_events (ms : nat) (st : Timers) (log : list (nat * Act)) (evs : list Event)
  : option (Timers * list (nat * Act)) :=
  match evs with
  | [] => Some (st, log)
  | ev :: evs' =>
      match step ms st ev with
      | Some (st', out) => run_events ms st' (log ++ out) evs'
      | None => None
      end
  end.

(** The invariant of the reachable states and logs. *)
Definition inv (ms : nat) (st : Timers) (log : list (nat * Act)) : Prop :=
  ((pending st = [] /\ (log = [] \/ exists pre r, log = pre ++ [(r, Run)])) \/
   (exists id t pre, pending st = [(id, t + ms)] /\ timeout st = Some id /\
                     log = pre ++ [(t, Trig)])) /\
  (forall x, In x log -> fst x <= now st) /\
  (forall pre a mid b post, log = pre ++ a :: mid ++ b :: post -> fst a <= fst b) /\
  (forall pre post r, log = pre ++ (r, Run) :: post ->
     exists pre' t, pre = pre' ++ [(t, Trig)] /\ t + ms <= r).

End Debounce.

(** [queueDecoratorUpdate = debounce(this.updateDecorators.bind(this), 500)] *)
Definition queue_delay : nat := 500.

(* ================================================================== *)
(** * Properties *)

(** Reading the explicit spans of one expression. *)
Definition spans_of (st : Store) (e : string) : option (list Range) :=
  match JSMap.get (value_map st) e with
  | Some l => option_map w_renderAt (heap st !! l)
  | None => None
  end.

(** The add command followed by the remove command on the same selection. *)
Definition add_then_remove (st : Store) (sel : Range) (e : string) : Store :=
  let '((st1, _), _, _) := add_command st sel e in
  let '((st2, _), _) := remove_command st1 sel e in
  st2.

(** Counting the leading and trailing white space of a text. *)
Fixpoint count_leading_ws (t : list ascii) : nat :=
  match t with
  | c :: t' => if is_ws c then S (count_leading_ws t') else 0
  | [] => 0
  end.


(** The location [getExpressionLocations] builds for a match of [n]
    characters at offset [off]. *)
Definition matched_loc (doc : list ascii) (e v : string) (off n : nat)
  : ExpressionLocation :=
  mkLoc e v (sub doc off n) (positionAt doc off).

Section Concrete.

Definition sel01 : Range := mkRangeRaw (mkPos 0 0) (mkPos 0 1).

Definition st_x : Store :=
  mkStore {[ 0 := mkWatched "x" None [sel01] ]} [("x", 0)] [(7%Z, 0)] 1.

Definition resp_no_error : Message :=
  mkMsg "response" "evaluate" false 8 7 "" "" (Some (mkBody false "int" "1")).

(** The request [evaluate] of the watch view for [x], with [seq] 7. *)
Definition msg_eval_x : Message :=
  mkMsg "request" "evaluate" true 7 0 "x" "watch" None.

(** The request [next] of the debugger's step-over. *)
Definition msg_next : Message := mkMsg "request" "next" true 9 0 "" "" None.

(** A store whose watch on [x] has a value with the empty display text. *)
Definition st_empty_result : Store :=
  mkStore {[ 0 := mkWatched "x" (Some (mkBody false "int" "")) [] ]} [("x", 0)] [] 1.


(** A response to request 7 with an error-free body. *)
Definition resp_x : Message :=
  mkMsg "response" "evaluate" true 8 7 "" "" (Some (mkBody false "int" "1")).

(** A second request [evaluate] of the watch view for [x], with [seq] 10. *)
Definition msg_eval_x2 : Message :=
  mkMsg "request" "evaluate" true 10 0 "x" "watch" None.

(** A store whose watch on the empty expression has a value. *)
Definition st_empty_expr : Store :=
  mkStore {[ 0 := mkWatched "" (Some (mkBody false "int" "1")) [] ]} [("", 0)] [] 1.


(** The two-line text [a], ["\r\n"], [b]. *)
Definition doc_a_crlf_b : list ascii := ["a"%char; cr; nl; "b"%char].

End Concrete.

(** The store invariant: expression strings are unique keys of the value
    map, every value-map entry refers to an object whose [expression] is
    its key, every pending request refers to an object that the value map
    holds under its own expression, and locations from [next_loc] on are
    free. *)
Definition store_wf (st : Store) : Prop :=
  NoDup (JSMap.keys (value_map st)) /\
  (forall k l, In (k, l) (value_map st) ->
     exists w, heap st !! l = Some w /\ w_expression w = k) /\
  (forall s l, In (s, l) (request_map st) ->
     exists w, heap st !! l = Some w /\ In (w_expression w, l) (value_map st)) /\
  (forall l, next_loc st <= l -> heap st !! l = None).

(** One handler invocation: the three commands, the session start and
    stop, and the two protocol callbacks (a callback that throws leaves
    the store as it was). *)
Inductive handler_step : Store -> Store -> Prop :=
| hs_add st sel e st' q c msg :
    add_command st sel e = ((st', q), c, msg) -> handler_step st st'
| hs_remove st sel e st' q msg :
    remove_command st sel e = ((st', q), msg) -> handler_step st st'
| hs_reset st st' q msg :
    reset_command st = ((st', q), msg) -> handler_step st st'
| hs_session st st' q :
    clearExpressions st = (st', q) -> handler_step st st'
| hs_outgoing st m st' q :
    onWillReceiveMessage st m = (st', q) -> handler_step st st'
| hs_incoming st m st' q :
    onDidSendMessage st m = Some (st', q) -> handler_step st st'
| hs_incoming_throw st m :
    onDidSendMessage st m = None -> handler_step st st.

Inductive reachable : Store -> Prop :=
| reachable_init : reachable empty_store
| reachable_step st st' : reachable st -> handler_step st st' -> reachable st'.

(* ------------------------------------------------------------------ *)
(** ** Auxiliary definitions of the proofs *)

(** One step of [positionAt] over a character; away from the middle of a
    ["\r\n"], [positionAt] is its left fold over the text before the
    offset (the ["\r"] of a ["\r\n"] then ends its line). *)
Definition adv (p : Position) (c : ascii) : Position :=
  if char_eqb c nl then mkPos (S (line p)) 0 else mkPos (line p) (S (character p)).

Definition has_nl (u : list ascii) : bool := existsb (fun c => char_eqb c nl) u.




(** Two locations in the order of their expressions' lengths. *)
Definition key_le (a b : ExpressionLocation) : Prop := loc_key a <= loc_key b.

(* ------------------------------------------------------------------ *)
(** ** Examples *)

Example regex_matches_ex1 :
  regex_matches (list_ascii_of_string "x = 1
y = x + 2") (list_ascii_of_string "x") = Some [(0, 2); (9, 12)].
Proof. vm_compute. reflexivity. Qed.

Example ex_store_decorations :
  updateDecorators ex_store ex_doc =
  Some [mkDeco (mkRangeRaw (mkPos 0 0) (mkPos 0 1)) "(" " = 1)";
        mkDeco (mkRangeRaw (mkPos 1 4) (mkPos 1 5)) "(" " = 1)"].
Proof. vm_compute. reflexivity. Qed.

(** ** C1: the boundary matcher *)

(** C1 (code_bug): the expression [a] inside the identifier [ab] is
    matched: the trailing group [(\s|\b|[|]|(|))] has the empty
    alternative [(|)], so any character may follow an occurrence, and the
    pass yields a location for [a] at line 0, column 0 of [ab]. *)
Theorem boundary_match_inside_identifier :
  regex_matches (list_ascii_of_string "ab") (list_ascii_of_string "a") = Some [(0, 1)] /\
  getExpressionLocations (list_ascii_of_string "ab")
    [("a", mkWatched "a" (Some (mkBody false "int" "1")) [])]
  = Some [mkLoc "a" "1" (list_ascii_of_string "a") (mkPos 0 0)].
Proof. split; vm_compute; reflexivity. Qed.

(** ** C2: incoming responses *)

(** C2, counterexample: an evaluate response with [success = false] whose
    body carries no error and whose [request_seq] (7) is pending sets the
    value and queues an update. *)
Lemma failed_response_sets_value :
  m_success resp_no_error = false /\
  onDidSendMessage st_x resp_no_error <> Some (st_x, false).
Proof.
  split; [reflexivity|].
  vm_compute. intros H. injection H as H1 H2. discriminate H2.
Qed.

(** ** C3: add then remove *)

(** C3, counterexample: [x] has the explicit span [sel01]; adding and
    removing at [sel01] leaves it with no explicit span. *)
Lemma add_remove_loses_span :
  spans_of st_x "x" = Some [sel01] /\
  spans_of (add_then_remove st_x sel01 "x") "x" = Some [].
Proof. split; vm_compute; reflexivity. Qed.

(** ** Lemmas on the JavaScript maps *)

Section JSMapFacts.
Context {K V : Type} `{EqDecision K}.
Implicit Types (m : JSMap.t K V) (k : K) (v : V).

Lemma get_In m k v : JSMap.get m k = Some v -> In (k, v) m.
Proof.
  induction m as [|[k' v'] m IH]; simpl; [discriminate|].
  case_decide; subst; [intros [= ->]; left; reflexivity|].
  intros H1. right. auto.
Qed.

Lemma In_get m k v : NoDup (JSMap.keys m) -> In (k, v) m -> JSMap.get m k = Some v.
Proof.
  induction m as [|[k' v'] m IH]; simpl; [contradiction|].
  intros Hnd Hin. inversion Hnd as [|? ? Hnotin Hnd']; subst.
  destruct Hin as [[= -> ->]|Hin].
  - case_decide; congruence.
  - case_decide; subst.
    + exfalso. apply Hnotin. apply list_elem_of_In. apply (in_map fst) in Hin. exact Hin.
    + auto.
Qed.

Lemma get_None_keys m k : JSMap.get m k = None -> ~ In k (JSMap.keys m).
Proof.
  induction m as [|[k' v'] m IH]; simpl; [auto|].
  case_decide; [discriminate|]. intros H1 [->|Hin]; [congruence|]. exact (IH H1 Hin).
Qed.

Lemma set_new m k v : JSMap.get m k = None -> JSMap.set m k v = m ++ [(k, v)].
Proof.
  induction m as [|[k' v'] m IH]; simpl; [reflexivity|].
  case_decide; [discriminate|]. intros H1. rewrite IH; auto.
Qed.

Lemma set_In m k v a b : In (a, b) (JSMap.set m k v) -> (a = k /\ b = v) \/ In (a, b) m.
Proof.
  induction m as [|[k' v'] m IH]; simpl.
  - intros [[= -> ->]|[]]. left. auto.
  - case_decide; subst; simpl.
    + intros [[= -> ->]|Hin]; auto.
    + intros [[= -> ->]|Hin]; auto. destruct (IH Hin) as [?|?]; auto.
Qed.

Lemma get_set_eq m k v : JSMap.get (JSMap.set m k v) k = Some v.
Proof.
  induction m as [|[k' v'] m IH]; simpl.
  - case_decide; congruence.
  - case_decide; subst; simpl; case_decide; congruence.
Qed.

Lemma keys_set_new m k v :
  JSMap.get m k = None -> JSMap.keys (JSMap.set m k v) = JSMap.keys m ++ [k].
Proof. intros H1. rewrite (set_new m k v H1). unfold JSMap.keys. rewrite map_app. reflexivity. Qed.

End JSMapFacts.

Lemma intersects_refl (r : Range) :
  pos_le (r_start r) (r_end r) = true -> intersects r r = true.
Proof.
  unfold intersects, pos_min, pos_max, pos_le.
  destruct (pos_lt (r_end r) (r_end r)), (pos_lt (r_start r) (r_start r)); exact (fun H => H).
Qed.

Lemma filter_idem {A} (f : A -> bool) (l : list A) :
  List.filter f (List.filter f l) = List.filter f l.
Proof.
  induction l as [|x l IH]; simpl; [reflexivity|].
  destruct (f x) eqn:Hf; simpl; [rewrite Hf, IH|]; auto.
Qed.

Lemma string_eqb_neq (a b : string) : a <> b -> String.eqb a b = false.
Proof. intros H. apply String.eqb_neq. exact H. Qed.

(** ** C2: incoming responses, as the code decides *)

(** C2 (amended): [onDidSendMessage] changes the store only for a
    response to [evaluate] whose body has no (truthy) [error] and whose
    [request_seq] is pending; then it sets that object's value to the body
    and queues an update.  Every other message leaves the store unchanged
    and queues nothing, and a message that carries a body, or is not a
    response to [evaluate], is handled without an error.  [success] is not
    read. *)
Theorem onDidSendMessage_guard (st : Store) (m : Message) :
  ((m_type m = "response" -> m_command m = "evaluate" -> m_body m <> None) ->
     exists st' q, onDidSendMessage st m = Some (st', q)) /\
  (forall st' q, onDidSendMessage st m = Some (st', q) ->
     (st' = st /\ q = false) \/
     (m_type m = "response" /\ m_command m = "evaluate" /\
      exists b l w, m_body m = Some b /\ b_error b = false /\
        JSMap.get (request_map st) (m_request_seq m) = Some l /\
        heap st !! l = Some w /\ q = true /\
        st' = mkStore (<[l := set_value w b]> (heap st)) (value_map st)
                      (request_map st) (next_loc st))) /\
  (forall b l w, m_type m = "response" -> m_command m = "evaluate" ->
     m_body m = Some b -> b_error b = false ->
     JSMap.get (request_map st) (m_request_seq m) = Some l -> heap st !! l = Some w ->
     onDidSendMessage st m =
       Some (mkStore (<[l := set_value w b]> (heap st)) (value_map st)
                     (request_map st) (next_loc st), true)).
Proof.
  unfold onDidSendMessage.
  destruct (String.eqb_spec (m_type m) "response") as [Ht|Ht];
  destruct (String.eqb_spec (m_command m) "evaluate") as [Hc|Hc]; simpl;
  [destruct (m_body m) as [b|] eqn:Hb;
   [destruct (b_error b) eqn:He;
    [|destruct (JSMap.get (request_map st) (m_request_seq m)) as [l|] eqn:Hg;
      [destruct (heap st !! l) as [w|] eqn:Hh|]]|]|..].
  (* a value is set *)
  2: { split; [intros _; eexists _, _; reflexivity|].
       split.
       - intros st' q [= <- <-]. right. split; [exact Ht|]. split; [exact Hc|].
         exists b, l, w. repeat split; auto.
       - intros b' l' w' _ _ H3 H4 H5 H6. congruence. }
  (* no body: outside the first part *)
  4: { split; [intros H; exfalso; exact (H Ht Hc eq_refl)|].
       split; [intros st' q H; discriminate|intros ? ? ? _ _ H3; congruence]. }
  (* every other case leaves the store as it is *)
  all: split; [intros _; eexists _, _; reflexivity|];
       split; [intros st' q [= <- <-]; left; auto|];
       intros b' l' w' H1 H2 H3 H4 H5 H6; congruence.
Qed.

(** ** C3: add then remove, as the code does it *)

Lemma wf_value_entry (st : Store) (k : string) (l : nat) :
  store_wf st -> JSMap.get (value_map st) k = Some l ->
  exists w, heap st !! l = Some w /\ w_expression w = k.
Proof. intros (_ & Hv & _) Hg. apply Hv. apply get_In. exact Hg. Qed.

(** C3 (amended): adding and then removing at the same (well-formed)
    selection leaves the expression with its former explicit spans minus
    every span that intersects the selection; an expression that was not
    watched ends with no explicit span.  The former spans come back
    exactly when none of them intersects the selection. *)
Theorem add_then_remove_spans (st : Store) (sel : Range) (e : string) :
  store_wf st -> e <> ""%string -> pos_le (r_start sel) (r_end sel) = true ->
  spans_of (add_then_remove st sel e) e =
  Some (match spans_of st e with
        | Some rs => List.filter (fun r => negb (intersects r sel)) rs
        | None => []
        end).
Proof.
  intros Hwf Hne Hsel.
  unfold add_then_remove, add_command, remove_command, spans_of.
  rewrite (string_eqb_neq _ _ Hne).
  destruct (JSMap.get (value_map st) e) as [l|] eqn:Hg.
  - destruct (wf_value_entry st e l Hwf Hg) as (w & Hh & _).
    rewrite Hh. simpl. rewrite Hg.
    rewrite lookup_insert_eq. simpl. rewrite Hg, lookup_insert_eq. simpl.
    rewrite List.filter_app, filter_idem. simpl.
    rewrite (intersects_refl sel Hsel). simpl. rewrite app_nil_r. reflexivity.
  - simpl. rewrite get_set_eq, lookup_insert_eq. simpl.
    rewrite get_set_eq, lookup_insert_eq. simpl.
    rewrite (intersects_refl sel Hsel). reflexivity.
Qed.

(** ** C5: the step command *)

(** C5: an outgoing [next] empties both maps and queues an update; on the
    store it leaves, no response finds a pending request, and every
    incoming message leaves the store as it is and queues nothing (or
    throws before touching it, for a body-less evaluate response). *)
Theorem next_clears_store (st : Store) (m : Message) :
  m_command m = "next" ->
  let '(st', q) := onWillReceiveMessage st m in
  value_map st' = [] /\ request_map st' = [] /\ q = true /\
  forall r : Message,
    JSMap.get (request_map st') (m_request_seq r) = None /\
    (onDidSendMessage st' r = Some (st', false) \/ onDidSendMessage st' r = None).
Proof.
  intros Hm. unfold onWillReceiveMessage. rewrite Hm. simpl.
  split; [reflexivity|]. split; [reflexivity|]. split; [reflexivity|].
  intros r. split; [reflexivity|].
  unfold onDidSendMessage. simpl.
  destruct (String.eqb (m_type r) "response" && String.eqb (m_command r) "evaluate");
    [|left; reflexivity].
  destruct (m_body r) as [b|]; [|right; reflexivity].
  destruct (b_error b); left; reflexivity.
Qed.

(** ** C10: the frame of the remove command *)

(** C10: on a watched expression the remove command keeps both maps and
    the allocation pointer, and changes the heap only by giving that
    object a sub-list of its explicit spans, with the same [expression]
    and [value]. *)
Theorem remove_frame (st : Store) (sel : Range) (e : string) (l : nat)
  (w : WatchedValue) :
  JSMap.get (value_map st) e = Some l -> heap st !! l = Some w ->
  let '((st', _), _) := remove_command st sel e in
  value_map st' = value_map st /\ request_map st' = request_map st /\
  next_loc st' = next_loc st /\
  exists rs, incl rs (w_renderAt w) /\
    heap st' = <[l := mkWatched (w_expression w) (w_value w) rs]> (heap st).
Proof.
  intros Hg Hh. unfold remove_command.
  destruct (String.eqb e "").
  - simpl. repeat split. exists (w_renderAt w). split; [apply incl_refl|].
    rewrite insert_id; [reflexivity|]. rewrite Hh. destruct w; reflexivity.
  - rewrite Hg, Hh. simpl. repeat split.
    exists (List.filter (fun r => negb (intersects r sel)) (w_renderAt w)).
    split; [|reflexivity].
    intros x Hx. apply filter_In in Hx. tauto.
Qed.

(** ** C8: the store invariant *)

Lemma wf_empty : store_wf empty_store.
Proof.
  unfold store_wf, empty_store; simpl. split; [constructor|].
  split; [intros ? ? []|]. split; [intros ? ? []|]. intros l _. apply lookup_empty.
Qed.

Lemma wf_clear (st : Store) : store_wf st -> store_wf (fst (clearExpressions st)).
Proof.
  intros (_ & _ & _ & Hfree). unfold store_wf; simpl.
  split; [constructor|]. split; [intros ? ? []|]. split; [intros ? ? []|]. exact Hfree.
Qed.

Lemma wf_update_obj (st : Store) (l : nat) (w w' : WatchedValue) :
  store_wf st -> heap st !! l = Some w -> w_expression w' = w_expression w ->
  store_wf (mkStore (<[l := w']> (heap st)) (value_map st) (request_map st) (next_loc st)).
Proof.
  intros (Hnd & Hv & Hr & Hfree) Hh Hexp. unfold store_wf; simpl.
  split; [exact Hnd|]. split; [|split].
  - intros k l' Hin. destruct (Hv k l' Hin) as (w0 & Hw0 & Hk).
    destruct (decide (l = l')) as [<-|Hne].
    + rewrite lookup_insert_eq. exists w'. split; [reflexivity|]. congruence.
    + rewrite lookup_insert_ne by exact Hne. eauto.
  - intros s l' Hin. destruct (Hr s l' Hin) as (w0 & Hw0 & Hk).
    destruct (decide (l = l')) as [<-|Hne].
    + rewrite lookup_insert_eq. exists w'. split; [reflexivity|]. congruence.
    + rewrite lookup_insert_ne by exact Hne. eauto.
  - intros l' Hle. assert (l <> l') as Hne.
    { intros <-. rewrite (Hfree l Hle) in Hh. discriminate. }
    rewrite lookup_insert_ne by exact Hne. auto.
Qed.

Lemma wf_alloc (st : Store) (e : string) (v : option Body) (rs : list Range)
  (rm : JSMap.t Z nat) :
  store_wf st -> JSMap.get (value_map st) e = None ->
  (forall s l, In (s, l) rm -> In (s, l) (request_map st) \/ l = next_loc st) ->
  store_wf (mkStore (<[next_loc st := mkWatched e v rs]> (heap st))
                    (JSMap.set (value_map st) e (next_loc st)) rm (S (next_loc st))).
Proof.
  intros (Hnd & Hv & Hr & Hfree) Hg Hrm. unfold store_wf; simpl.
  pose proof (get_None_keys _ _ Hg) as Hnk.
  rewrite (set_new _ _ _ Hg).
  assert (Hold : forall l w, heap st !! l = Some w -> l <> next_loc st).
  { intros l w Hw ->. rewrite (Hfree (next_loc st) (le_n _)) in Hw. discriminate. }
  split; [|split; [|split]].
  - unfold JSMap.keys. rewrite map_app. simpl. apply NoDup_app. split; [exact Hnd|].
    split; [|apply NoDup_singleton].
    intros x Hx Hx'. apply list_elem_of_singleton in Hx'. subst x.
    apply Hnk. apply list_elem_of_In. exact Hx.
  - intros k l Hin. apply in_app_or in Hin as [Hin|[[= <- <-]|[]]].
    + destruct (Hv k l Hin) as (w0 & Hw0 & Hk).
      rewrite lookup_insert_ne by (apply not_eq_sym; eapply Hold; eauto). eauto.
    + rewrite lookup_insert_eq. eexists; split; reflexivity.
  - intros s l Hin. destruct (Hrm s l Hin) as [Hin' | ->].
    + destruct (Hr s l Hin') as (w0 & Hw0 & Hk).
      rewrite lookup_insert_ne by (apply not_eq_sym; eapply Hold; eauto).
      exists w0. split; [exact Hw0|]. apply in_or_app. left. exact Hk.
    + rewrite lookup_insert_eq. eexists; split; [reflexivity|].
      apply in_or_app. right. left. reflexivity.
  - intros l Hle. rewrite lookup_insert_ne by lia. apply Hfree. lia.
Qed.

Lemma wf_register (st : Store) (e : string) (l : nat) (seq : Z) :
  store_wf st -> JSMap.get (value_map st) e = Some l ->
  store_wf (mkStore (heap st) (value_map st) (JSMap.set (request_map st) seq l)
                    (next_loc st)).
Proof.
  intros Hwf Hg. destruct (wf_value_entry st e l Hwf Hg) as (w & Hh & He).
  destruct Hwf as (Hnd & Hv & Hr & Hfree). unfold store_wf; simpl.
  split; [exact Hnd|]. split; [exact Hv|]. split; [|exact Hfree].
  intros s l' Hin. apply set_In in Hin as [[-> ->]|Hin]; [|eauto].
  exists w. split; [exact Hh|]. rewrite He. apply get_In. exact Hg.
Qed.

Lemma wf_handler_step (st st' : Store) :
  store_wf st -> handler_step st st' -> store_wf st'.
Proof.
  intros Hwf Hstep. destruct Hstep as [st sel e st' q c msg Hadd|st sel e st' q msg Hrem
    |st st' q msg Hreset|st st' q Hclr|st m st' q Hout|st m st' q Hin|st m _].
  - unfold add_command in Hadd.
    destruct (String.eqb e ""); [injection Hadd as <-; auto|].
    destruct (JSMap.get (value_map st) e) as [l|] eqn:Hg.
    + destruct (heap st !! l) as [w|] eqn:Hh; [|injection Hadd as <-; auto].
      injection Hadd as <-. eapply wf_update_obj; eauto.
    + injection Hadd as <-. apply wf_alloc; auto.
  - unfold remove_command in Hrem.
    destruct (String.eqb e ""); [injection Hrem as <-; auto|].
    destruct (JSMap.get (value_map st) e) as [l|] eqn:Hg; [|injection Hrem as <-; auto].
    destruct (heap st !! l) as [w|] eqn:Hh; [|injection Hrem as <-; auto].
    injection Hrem as <-. eapply wf_update_obj; eauto.
  - unfold reset_command, clearExpressions in Hreset. injection Hreset as <- _ _.
    exact (wf_clear st Hwf).
  - unfold clearExpressions in Hclr. injection Hclr as <- _. exact (wf_clear st Hwf).
  - unfold onWillReceiveMessage in Hout.
    destruct (String.eqb (m_command m) "next").
    { unfold clearExpressions in Hout. injection Hout as <- _. exact (wf_clear st Hwf). }
    destruct (String.eqb (m_command m) "evaluate" && String.eqb (m_type m) "request"
              && String.eqb (m_arg_context m) "watch"); [|injection Hout as <-; auto].
    destruct (JSMap.get (value_map st) (m_arg_expression m)) as [l|] eqn:Hg.
    + injection Hout as <-. eapply wf_register; eauto.
    + injection Hout as <-. apply wf_alloc; auto.
      intros s l Hin. apply set_In in Hin as [[_ ->]|Hin]; auto.
  - unfold onDidSendMessage in Hin.
    destruct (String.eqb (m_type m) "response" && String.eqb (m_command m) "evaluate");
      [|injection Hin as <-; auto].
    destruct (m_body m) as [b|]; [|discriminate].
    destruct (b_error b); [injection Hin as <-; auto|].
    destruct (JSMap.get (request_map st) (m_request_seq m)) as [l|];
      [|injection Hin as <-; auto].
    destruct (heap st !! l) as [w|] eqn:Hh; [|injection Hin as <-; auto].
    injection Hin as <-. eapply wf_update_obj; eauto.
  - exact Hwf.
Qed.

(** C8: after every handler invocation, starting from the empty store,
    expression strings are unique keys of the value map, each entry holds
    an object whose [expression] is its key, and every object of the
    pending-request map is held by the value map under its own
    expression. *)
Theorem store_wf_reachable (st : Store) : reachable st -> store_wf st.
Proof.
  induction 1 as [|st st' _ IH Hstep]; [exact wf_empty|].
  exact (wf_handler_step st st' IH Hstep).
Qed.

(** ** C9: values whose display text is empty *)

Lemma locations_of_expression (doc : list ascii) (k : string) (w : WatchedValue)
  (ls : list ExpressionLocation) :
  locations_of doc k w = Some ls -> forall x, In x ls -> loc_expression x = k.
Proof.
  unfold locations_of. destruct (w_value w) as [b|]; [|discriminate].
  destruct (w_renderAt w) as [|r rs].
  - destruct (regex_matches doc (list_ascii_of_string k)) as [ms|]; [|discriminate].
    intros [= <-] x Hx. apply in_map_iff in Hx as ([i j] & <- & _). reflexivity.
  - intros [= <-] x Hx. change (In x (map (fun r0 : Range => mkLoc k (b_result b)
      (list_ascii_of_string k) (r_start r0)) (r :: rs))) in Hx.
    apply in_map_iff in Hx as (r' & <- & _). reflexivity.
Qed.

Lemma getExpressionLocations_from (doc : list ascii)
  (es : list (string * WatchedValue)) (locs : list ExpressionLocation) :
  getExpressionLocations doc es = Some locs ->
  forall x, In x locs -> exists w, In (loc_expression x, w) es.
Proof.
  revert locs. induction es as [|[k w] es IH]; simpl; intros locs.
  - intros [= <-] x [].
  - destruct (locations_of doc k w) as [ls|] eqn:Hl; [|discriminate].
    destruct (getExpressionLocations doc es) as [ls'|] eqn:Hr; [|discriminate].
    intros [= <-] x Hx. apply in_app_or in Hx as [Hx|Hx].
    + exists w. left. rewrite (locations_of_expression doc k w ls Hl x Hx). reflexivity.
    + destruct (IH ls' eq_refl x Hx) as [w' Hw']. exists w'. right. exact Hw'.
Qed.

Lemma filtered_entry (st : Store) (k : string) (w : WatchedValue) :
  In (k, w) (List.filter (fun '(_, w) => has_result w) (entries st)) ->
  has_result w = true /\ exists l, In (k, l) (value_map st) /\ heap st !! l = Some w.
Proof.
  intros Hin. apply filter_In in Hin as [Hin Hr]. split; [exact Hr|].
  unfold entries in Hin. induction (value_map st) as [|[k' l'] vm IH]; simpl in Hin.
  - contradiction.
  - destruct (heap st !! l') as [w'|] eqn:Hh; simpl in Hin.
    + destruct Hin as [[= <- <-]|Hin].
      * exists l'. split; [left; reflexivity|exact Hh].
      * destruct (IH Hin) as (l & Hl & Hw). exists l. split; [right; exact Hl|exact Hw].
    + destruct (IH Hin) as (l & Hl & Hw). exists l. split; [right; exact Hl|exact Hw].
Qed.

Lemma filter_entries_drop (h : gmap nat WatchedValue) (vm : JSMap.t string nat)
  (rm : JSMap.t Z nat) (n : nat) (e : string) :
  (forall l w, In (e, l) vm -> h !! l = Some w -> has_result w = false) ->
  List.filter (fun '(_, w) => has_result w) (entries (mkStore h vm rm n)) =
  List.filter (fun '(_, w) => has_result w)
    (entries (mkStore h (List.filter (fun '(k, _) => negb (String.eqb k e)) vm) rm n)).
Proof.
  unfold entries; simpl. induction vm as [|[k l] vm IH]; simpl; intros Hnone; [reflexivity|].
  destruct (String.eqb_spec k e) as [->|Hne]; simpl.
  - destruct (h !! l) as [w|] eqn:Hh; simpl.
    + rewrite (Hnone l w (or_introl eq_refl) Hh). apply IH. intros; eapply Hnone; eauto.
    + apply IH. intros; eapply Hnone; eauto.
  - destruct (h !! l) as [w|] eqn:Hh; simpl.
    + destruct (has_result w); [f_equal|]; apply IH; intros; eapply Hnone; eauto.
    + apply IH. intros; eapply Hnone; eauto.
Qed.

(** C9: a watched expression whose value has the display text [""] gives
    no location, and the decorations of the pass are those of the store
    without that expression. *)
Theorem empty_result_excluded (st : Store) (doc : list ascii) (e : string) (l : nat)
  (w : WatchedValue) (b : Body) :
  store_wf st -> In (e, l) (value_map st) -> heap st !! l = Some w ->
  w_value w = Some b -> b_result b = ""%string ->
  updateDecorators st doc =
    updateDecorators (mkStore (heap st)
      (List.filter (fun '(k, _) => negb (String.eqb k e)) (value_map st))
      (request_map st) (next_loc st)) doc /\
  (forall locs, getExpressionLocations doc
     (List.filter (fun '(_, w) => has_result w) (entries st)) = Some locs ->
   forall x, In x locs -> loc_expression x <> e).
Proof.
  intros Hwf Hin Hh Hv Hres.
  assert (Hw : has_result w = false) by (unfold has_result; rewrite Hv, Hres; reflexivity).
  assert (Hnone : forall l' w', In (e, l') (value_map st) -> heap st !! l' = Some w' ->
                  has_result w' = false).
  { intros l' w' Hin' Hh'. destruct Hwf as (Hnd & _).
    pose proof (In_get _ _ _ Hnd Hin) as Hg. pose proof (In_get _ _ _ Hnd Hin') as Hg'.
    rewrite Hg in Hg'. injection Hg' as <-. congruence. }
  split.
  - unfold updateDecorators. destruct st as [h vm rm n]. simpl in *.
    rewrite (filter_entries_drop h vm rm n e Hnone). reflexivity.
  - intros locs Hlocs x Hx Hex.
    destruct (getExpressionLocations_from doc _ locs Hlocs x Hx) as [w' Hw'].
    rewrite Hex in Hw'. apply filtered_entry in Hw' as (Hr & l' & Hin' & Hh').
    rewrite (Hnone l' w' Hin' Hh') in Hr. discriminate.
Qed.

(** ** C6: the processing order of [generateDecorators] *)

Lemma insert_loc_perm (x : ExpressionLocation) (l : list ExpressionLocation) :
  Permutation (insert_loc x l) (x :: l).
Proof.
  induction l as [|y l IH]; simpl; [reflexivity|].
  destruct (loc_key x <? loc_key y); [reflexivity|].
  rewrite IH. apply perm_swap.
Qed.

Lemma sort_locs_perm (ls : list ExpressionLocation) : Permutation (sort_locs ls) ls.
Proof.
  unfold sort_locs.
  assert (H : forall acc, Permutation (fold_left (fun acc x => insert_loc x acc) ls acc)
                                      (ls ++ acc)).
  { induction ls as [|x ls IH]; intros acc; simpl; [reflexivity|].
    rewrite IH, insert_loc_perm. apply Permutation_sym, Permutation_middle. }
  rewrite H, app_nil_r. reflexivity.
Qed.

Lemma insert_loc_sorted (x : ExpressionLocation) (l : list ExpressionLocation) :
  Sorted key_le l -> Sorted key_le (insert_loc x l).
Proof.
  induction l as [|y l IH]; simpl; intros Hs.
  - repeat constructor.
  - destruct (Nat.ltb_spec (loc_key x) (loc_key y)) as [Hlt|Hge].
    + constructor; [exact Hs|]. constructor. unfold key_le. lia.
    + inversion Hs as [|? ? Hs' Hhd]; subst. constructor; [apply IH; exact Hs'|].
      destruct l as [|z l]; simpl.
      * constructor. unfold key_le. lia.
      * destruct (loc_key x <? loc_key z); constructor; unfold key_le; [lia|].
        inversion Hhd; assumption.
Qed.

Lemma sort_locs_sorted (ls : list ExpressionLocation) : Sorted key_le (sort_locs ls).
Proof.
  unfold sort_locs.
  assert (H : forall acc, Sorted key_le acc ->
              Sorted key_le (fold_left (fun acc x => insert_loc x acc) ls acc)).
  { induction ls as [|x ls IH]; intros acc Hacc; simpl; [exact Hacc|].
    apply IH. apply insert_loc_sorted. exact Hacc. }
  apply H. constructor.
Qed.

Lemma strongly_sorted_nth (l : list ExpressionLocation) (i j : nat)
  (a b : ExpressionLocation) :
  StronglySorted key_le l -> i < j -> nth_error l i = Some a -> nth_error l j = Some b ->
  key_le a b.
Proof.
  revert i j. induction l as [|x l IH]; intros i j Hs Hij Ha Hb.
  - destruct i; discriminate.
  - inversion Hs as [|? ? Hs' Hall]; subst.
    destruct i as [|i]; destruct j as [|j]; simpl in *; try lia.
    + injection Ha as <-. rewrite Forall_forall in Hall. apply Hall.
      apply list_elem_of_In. eapply nth_error_In. exact Hb.
    + apply (IH i j); auto. lia.
Qed.

Lemma map_opt_nth {A B} (f : A -> option B) (l : list A) (ds : list B) (i : nat) (a : A) :
  map_opt f l = Some ds -> nth_error l i = Some a -> nth_error ds i = f a.
Proof.
  revert ds i. induction l as [|x l IH]; intros ds i; simpl.
  - intros _ Hi. destruct i; discriminate.
  - destruct (f x) as [y|] eqn:Hf; [|discriminate].
    destruct (map_opt f l) as [ys|] eqn:Hr; [|discriminate].
    intros [= <-]. destruct i as [|i]; simpl.
    + intros [= <-]. symmetry. exact Hf.
    + apply IH. reflexivity.
Qed.

(** C6: [generateDecorators] processes a permutation of the locations in
    which a location of a shorter expression always comes before one of a
    longer expression, and the [k]-th decoration it returns is the one of
    the [k]-th processed location; so of two locations with expressions of
    different length, the longer one's decoration is applied later. *)
Theorem decorations_by_expression_length (doc : list ascii)
  (locs : list ExpressionLocation) :
  Permutation (sort_locs locs) locs /\
  (forall i j a b, nth_error (sort_locs locs) i = Some a ->
     nth_error (sort_locs locs) j = Some b ->
     String.length (loc_expression a) < String.length (loc_expression b) -> i < j) /\
  (forall ds, generateDecorators doc locs = Some ds ->
     forall i a, nth_error (sort_locs locs) i = Some a -> nth_error ds i = decorate doc a).
Proof.
  split; [apply sort_locs_perm|]. split.
  - intros i j a b Ha Hb Hlt.
    assert (Hss : StronglySorted key_le (sort_locs locs)).
    { apply Sorted_StronglySorted; [unfold Relations_1.Transitive, key_le; intros; lia|].
      apply sort_locs_sorted. }
    destruct (Nat.lt_total i j) as [Hij|[->|Hji]]; [exact Hij| |].
    + rewrite Ha in Hb. injection Hb as ->. lia.
    + pose proof (strongly_sorted_nth _ j i b a Hss Hji Hb Ha) as Hk.
      unfold key_le, loc_key in Hk. lia.
  - intros ds Hds i a Ha. exact (map_opt_nth _ _ _ i a Hds Ha).
Qed.

(** ** C7: the debounced update *)

Module DebounceFacts.
Import Debounce.

Lemma snoc_split {A} (l : list A) (x : A) (pre : list A) (y : A) (post : list A) :
  l ++ [x] = pre ++ y :: post ->
  (post = [] /\ y = x /\ l = pre) \/ (exists post', post = post' ++ [x] /\ l = pre ++ y :: post').
Proof.
  destruct post as [|z post] using rev_ind; intros H.
  - left. apply app_inj_tail in H as [-> ->]. auto.
  - right. exists post. rewrite app_comm_cons, app_assoc in H.
    apply app_inj_tail in H as [-> ->]. auto.
Qed.

Lemma inv_init ms : inv ms init [].
Proof.
  unfold inv. split; [left; auto|]. split; [intros ? []|].
  split; [intros pre ? ? ? ? H; destruct pre; discriminate|].
  intros pre ? ? H. destruct pre; discriminate.
Qed.

(** Appending one entry stamped with the current time keeps the order of
    the log. *)
Lemma ordered_snoc (log : list (nat * Act)) (x : nat * Act) (n : nat) :
  (forall y, In y log -> fst y <= n) -> fst x = n ->
  (forall pre a mid b post, log = pre ++ a :: mid ++ b :: post -> fst a <= fst b) ->
  forall pre a mid b post, log ++ [x] = pre ++ a :: mid ++ b :: post -> fst a <= fst b.
Proof.
  intros Hle Hx Hord pre a mid b post H.
  rewrite app_comm_cons, app_assoc in H.
  apply snoc_split in H as [(-> & -> & Hl)|(post' & -> & Hl)].
  - rewrite Hx. apply Hle. rewrite Hl. apply in_or_app. right. left. reflexivity.
  - rewrite <- app_assoc, <- app_comm_cons in Hl. exact (Hord _ _ _ _ _ Hl).
Qed.

Lemma inv_step ms st log ev st' out :
  inv ms st log -> step ms st ev = Some (st', out) -> inv ms st' (log ++ out).
Proof.
  intros (Hp & Hle & Hord & Hrun) Hstep. destruct ev as [|d|id]; simpl in Hstep.
  - (* a call: clearTimeout, then setTimeout *)
    injection Hstep as <- <-. unfold inv; simpl. split; [|split; [|split]].
    + right. exists (next_id st), (now st), log. split; [|auto].
      destruct Hp as [(-> & _)|(id & t & pre & -> & -> & _)]; simpl.
      * destruct (timeout st); reflexivity.
      * rewrite Nat.eqb_refl. reflexivity.
    + intros x Hx. apply in_app_or in Hx as [Hx|[<-|[]]]; [apply Hle; exact Hx|simpl; lia].
    + apply (ordered_snoc log (now st, Trig) (now st) Hle eq_refl Hord).
    + intros pre post r H. apply snoc_split in H as [(_ & [=] & _)|(post' & _ & Hl)].
      exact (Hrun _ _ _ Hl).
  - (* time passes *)
    injection Hstep as <- <-. rewrite app_nil_r. unfold inv; simpl.
    split; [exact Hp|]. split; [intros x Hx; specialize (Hle x Hx); lia|].
    split; [exact Hord|exact Hrun].
  - (* the host fires a due timer *)
    destruct (deadline_of (pending st) id) as [dl|] eqn:Hd; [|discriminate].
    destruct (Nat.leb_spec dl (now st)) as [Hdue|]; [|discriminate].
    injection Hstep as <- <-.
    destruct Hp as [(Hnil & _)|(id0 & t & pre0 & Hpend & Hto & Hlog)].
    { rewrite Hnil in Hd. discriminate. }
    rewrite Hpend in Hd |- *. simpl in Hd |- *.
    destruct (Nat.eqb_spec id0 id) as [<-|]; [|discriminate].
    injection Hd as <-. unfold inv; simpl. split; [|split; [|split]].
    + left. split; [reflexivity|]. right. exists log, (now st). reflexivity.
    + intros x Hx. apply in_app_or in Hx as [Hx|[<-|[]]]; [apply Hle; exact Hx|simpl; lia].
    + apply (ordered_snoc log (now st, Run) (now st) Hle eq_refl Hord).
    + intros pre post r H. apply snoc_split in H as [(_ & [= Hr] & <-)|(post' & _ & Hl)].
      * exists pre0, t. split; [exact Hlog|lia].
      * exact (Hrun _ _ _ Hl).
Qed.

Lemma inv_reach ms st log : reach ms st log -> inv ms st log.
Proof.
  induction 1 as [|st log ev st' out _ IH Hstep]; [apply inv_init|].
  exact (inv_step ms st log ev st' out IH Hstep).
Qed.

End DebounceFacts.

Lemma last_is_trig (pre mid pre' : list (nat * Debounce.Act)) (r1 t : nat) :
  pre ++ (r1, Debounce.Run) :: mid = pre' ++ [(t, Debounce.Trig)] ->
  exists mid', mid = mid' ++ [(t, Debounce.Trig)].
Proof.
  destruct mid as [|z mid] using rev_ind; intros H.
  - apply app_inj_tail in H as [_ [=]].
  - rewrite app_comm_cons, app_assoc in H. apply app_inj_tail in H as [_ ->].
    exists mid. reflexivity.
Qed.

(** C7: with the delay [ms] (500 for [queueDecoratorUpdate]), in every
    reachable state at most one timer of the debounced function is
    pending, and a call replaces the pending timer by a new one.  In the
    log of calls and runs, every run comes right after a call, at least
    [ms] after it (the most recent call); two runs are at least [ms]
    apart; and a call made less than [ms] after an earlier call leaves no
    run between the two. *)
Theorem debounce_single_timer (ms : nat) (st : Debounce.Timers)
  (log : list (nat * Debounce.Act)) :
  Debounce.reach ms st log ->
  length (Debounce.pending st) <= 1 /\
  (forall st' out, Debounce.step ms st Debounce.Call = Some (st', out) ->
     Debounce.pending st' = [(Debounce.next_id st, Debounce.now st + ms)]) /\
  (forall pre post r, log = pre ++ (r, Debounce.Run) :: post ->
     exists pre' t, pre = pre' ++ [(t, Debounce.Trig)] /\ t + ms <= r) /\
  (forall pre mid post r1 r2,
     log = pre ++ (r1, Debounce.Run) :: mid ++ (r2, Debounce.Run) :: post -> r1 + ms <= r2) /\
  (forall pre mid post t1 t2,
     log = pre ++ (t1, Debounce.Trig) :: mid ++ (t2, Debounce.Trig) :: post ->
     t2 < t1 + ms -> forall r, ~ In (r, Debounce.Run) mid).
Proof.
  intros Hreach.
  destruct (DebounceFacts.inv_reach ms st log Hreach) as (Hp & Hle & Hord & Hrun).
  split; [|split; [|split; [exact Hrun|split]]].
  - destruct Hp as [(-> & _)|(id & t & pre & -> & _)]; simpl; lia.
  - intros st' out Hs. simpl in Hs. injection Hs as <- _. simpl.
    destruct Hp as [(-> & _)|(id & t & pre & -> & -> & _)]; simpl.
    + destruct (Debounce.timeout st); reflexivity.
    + rewrite Nat.eqb_refl. reflexivity.
  - intros pre mid post r1 r2 H.
    rewrite app_comm_cons, app_assoc in H.
    destruct (Hrun _ _ _ H) as (pre' & t & Hpre & Ht).
    destruct (last_is_trig pre mid pre' r1 t Hpre) as [mid' ->].
    rewrite <- app_assoc, <- app_comm_cons, <- app_assoc in H. simpl in H.
    pose proof (Hord pre _ mid' _ _ H) as Hr1. simpl in Hr1. lia.
  - intros pre mid post t1 t2 H Hlt r Hin.
    apply in_split in Hin as (m1 & m2 & ->).
    assert (H' : log = (pre ++ (t1, Debounce.Trig) :: m1) ++ (r, Debounce.Run) ::
                       (m2 ++ (t2, Debounce.Trig) :: post)).
    { rewrite H, <- app_assoc. simpl. rewrite <- app_assoc. reflexivity. }
    destruct (Hrun _ _ _ H') as (pre' & t & Hpre & Ht).
    assert (Ht1 : t1 <= t).
    { destruct m1 as [|z m1] using rev_ind.
      - apply app_inj_tail in Hpre as [_ [= ->]]. lia.
      - rewrite app_comm_cons, app_assoc in Hpre.
        apply app_inj_tail in Hpre as [_ ->].
        assert (Hl : log = pre ++ (t1, Debounce.Trig) :: m1 ++ (t, Debounce.Trig) ::
                           ((r, Debounce.Run) :: m2 ++ (t2, Debounce.Trig) :: post)).
        { rewrite H'. repeat (rewrite <- app_assoc; simpl). reflexivity. }
        exact (Hord _ _ _ _ _ Hl). }
    assert (Hr2 : r <= t2).
    { assert (Hl : log = (pre ++ (t1, Debounce.Trig) :: m1) ++ (r, Debounce.Run) ::
                         m2 ++ (t2, Debounce.Trig) :: post) by exact H'.
      exact (Hord _ _ _ _ _ Hl). }
    lia.
Qed.

(** ** C4: the range of a decoration *)

Module PositionFacts.





Lemma cr_nl_neq (c : ascii) : char_eqb c nl = true -> char_eqb c cr = false.
Proof. intros H. apply Ascii.eqb_eq in H. subst c. reflexivity. Qed.



Lemma fold_no_nl (u : list ascii) (x : Position) :
  has_nl u = false -> fold_left adv u x = mkPos (line x) (character x + length u).
Proof.
  revert x. induction u as [|c u IH]; intros x; simpl.
  - intros _. destruct x; simpl. f_equal. lia.
  - unfold adv at 2. destruct (char_eqb c nl); simpl; [discriminate|].
    intros H. rewrite IH by exact H. simpl. f_equal. lia.
Qed.





Lemma fold_nl_char (u : list ascii) (x y : Position) :
  has_nl u = true -> character (fold_left adv u x) = character (fold_left adv u y).
Proof.
  revert x y. induction u as [|c u IH]; intros x y; simpl; [discriminate|].
  unfold adv at 2 4. destruct (char_eqb c nl); simpl.
  - intros _. case_eq (has_nl u); intros Hu; [apply IH; exact Hu|].
    rewrite !fold_no_nl by exact Hu. reflexivity.
  - intros H. apply IH. exact H.
Qed.

Lemma fold_nl_char_lt (u : list ascii) (x : Position) :
  has_nl u = true -> character (fold_left adv u x) < length u.
Proof.
  revert x. induction u as [|c u IH]; intros x; simpl; [discriminate|].
  unfold adv at 2. destruct (char_eqb c nl); simpl.
  - intros _. case_eq (has_nl u); intros Hu.
    + specialize (IH (mkPos (S (line x)) 0) Hu). lia.
    + rewrite fold_no_nl by exact Hu. simpl. lia.
  - intros H. specialize (IH (mkPos (line x) (S (character x))) H). lia.
Qed.



End PositionFacts.

Module DocFacts.
Import PositionFacts.








End DocFacts.

Module TextFacts.
Import PositionFacts.

Lemma trimStart_length (t : list ascii) :
  length (trimStart t) + count_leading_ws t = length t.
Proof.
  induction t as [|c t IH]; simpl; [reflexivity|].
  destruct (is_ws c); simpl; lia.
Qed.



Lemma count_leading_ws_le (t : list ascii) : count_leading_ws t <= length t.
Proof. pose proof (trimStart_length t). lia. Qed.





Lemma firstn_add {A} (a b : nat) (s : list A) :
  firstn (a + b) s = firstn a s ++ firstn b (skipn a s).
Proof.
  revert s. induction a as [|a IH]; intros s; [reflexivity|].
  destruct s as [|x s]; simpl; [destruct b; reflexivity|]. rewrite IH. reflexivity.
Qed.


End TextFacts.

Module EndFacts.
Import PositionFacts DocFacts TextFacts.









End EndFacts.

Import PositionFacts DocFacts TextFacts EndFacts.


(** C4 (counterexample): in the text ["a b"] the expression [" "] (a
    single space) is matched at offset 1 with the one-character text
    [" "], which has one leading white-space character and starts at
    column 1; the claim puts the decoration's start at column 2, but the
    emitted range starts at column 1: the shifted start (0,2) lies after
    the shifted end (0,1) and [new vscode.Range] swaps them. *)
Lemma whitespace_match_range_swapped :
  let doc := list_ascii_of_string "a b" in
  regex_matches doc (list_ascii_of_string " ") = Some [(1, 2)] /\
  positionAt doc 1 = mkPos 0 1 /\
  count_leading_ws (sub doc 1 1) = 1 /\
  generateDecorators doc [matched_loc doc " " "1" 1 1] =
    Some [mkDeco (mkRangeRaw (mkPos 0 1) (mkPos 0 2)) "(" " = 1)"].
Proof. cbv zeta. repeat split; vm_compute; reflexivity. Qed.


(** In a document with ["\r\n"] line breaks, a match that ends with the
    ["\r"] of a line break ends at the end of its line, before the
    ["\r"]; the shift by the trailing white space, which counts the
    ["\r"], then ends the decoration one column early: in [a], ["\r\n"],
    [b] the match [a], ["\r"] of [a] is decorated from (0,0) to (0,0). *)
Example crlf_trailing_cr :
  regex_matches doc_a_crlf_b (list_ascii_of_string "a") = Some [(0, 2)] /\
  positionAt doc_a_crlf_b 2 = mkPos 0 1 /\
  generateDecorators doc_a_crlf_b [matched_loc doc_a_crlf_b "a" "1" 0 2] =
    Some [mkDeco (mkRangeRaw (mkPos 0 0) (mkPos 0 0)) "(" " = 1)"].
Proof. repeat split; vm_compute; reflexivity. Qed.

(* ------------------------------------------------------------------ *)
(** ** Witnesses: the hypotheses of the theorems hold at concrete inputs *)

Lemma wf_single (e : string) (w : WatchedValue) (reqs : list (Z * nat)) :
  w_expression w = e -> (forall s l, In (s, l) reqs -> l = 0) ->
  store_wf (mkStore {[ 0 := w ]} [(e, 0)] reqs 1).
Proof.
  intros He Hr. unfold store_wf; simpl. split; [|split; [|split]].
  - apply NoDup_singleton.
  - intros k l [[= <- <-]|[]]. exists w. split; [apply lookup_singleton_eq|exact He].
  - intros s l Hin. apply Hr in Hin. subst l.
    exists w. split; [apply lookup_singleton_eq|left; rewrite He; reflexivity].
  - intros l Hl. apply lookup_singleton_ne. lia.
Qed.

Lemma st_x_wf : store_wf st_x.
Proof. apply wf_single; [reflexivity|]. intros s l [[= _ <-]|[]]. reflexivity. Qed.

Lemma st_empty_result_wf : store_wf st_empty_result.
Proof. apply wf_single; [reflexivity|]. intros s l []. Qed.

Lemma reach_run (ms : nat) (evs : list Debounce.Event) :
  forall st0 log0 st log, Debounce.reach ms st0 log0 ->
  Debounce.run_events ms st0 log0 evs = Some (st, log) -> Debounce.reach ms st log.
Proof.
  induction evs as [|ev evs IH]; intros st0 log0 st log H0 Hrun; simpl in Hrun.
  - injection Hrun as <- <-. exact H0.
  - destruct (Debounce.step ms st0 ev) as [[st1 out]|] eqn:Hs; [|discriminate].
    eapply IH; [|exact Hrun]. eapply Debounce.reach_step; eassumption.
Qed.

(** C3: at [x] with the span (0,0)-(0,1), adding and removing that span
    leaves no span. *)
Lemma add_then_remove_spans_witness :
  store_wf st_x /\ spans_of (add_then_remove st_x sel01 "x") "x" = Some [].
Proof.
  split; [exact st_x_wf|].
  rewrite (add_then_remove_spans st_x sel01 "x" st_x_wf ltac:(discriminate) eq_refl).
  vm_compute. reflexivity.
Defined.


(** C5: after [next], the store of [st_x] holds no watch. *)
Lemma next_clears_store_witness :
  m_command msg_next = "next" /\ value_map (fst (onWillReceiveMessage st_x msg_next)) = [].
Proof.
  split; [reflexivity|].
  pose proof (next_clears_store st_x msg_next eq_refl) as H.
  destruct (onWillReceiveMessage st_x msg_next) as [st' q]. exact (proj1 H).
Defined.

(** C7: a call, 500 ms, and the timer firing: one Run after one Trig. *)
Lemma debounce_single_timer_witness :
  Debounce.reach 500 (Debounce.mkTimers 500 [] 1 (Some 0))
    [(0, Debounce.Trig); (500, Debounce.Run)] /\
  length (Debounce.pending (Debounce.mkTimers 500 [] 1 (Some 0))) <= 1.
Proof.
  assert (H : Debounce.reach 500 (Debounce.mkTimers 500 [] 1 (Some 0))
                [(0, Debounce.Trig); (500, Debounce.Run)]).
  { apply (reach_run 500 [Debounce.Call; Debounce.Advance 500; Debounce.FireTimer 0]
             Debounce.init []); [apply Debounce.reach_init|reflexivity]. }
  split; [exact H|]. exact (proj1 (debounce_single_timer 500 _ _ H)).
Defined.

(** C8: [st_x] is reached by adding [x] and the watch view's [evaluate]. *)
Lemma store_wf_reachable_witness : reachable st_x /\ store_wf st_x.
Proof.
  assert (H : reachable st_x).
  { eapply reachable_step; [eapply reachable_step; [apply reachable_init|]|].
    - eapply (hs_add _ sel01 "x"). reflexivity.
    - eapply (hs_outgoing _ msg_eval_x). reflexivity. }
  split; [exact H|]. exact (store_wf_reachable st_x H).
Defined.

(** C9: the watch of [st_empty_result] gives no decoration. *)
Lemma empty_result_excluded_witness :
  store_wf st_empty_result /\
  updateDecorators st_empty_result ex_doc =
    updateDecorators (mkStore (heap st_empty_result) [] [] 1) ex_doc.
Proof.
  split; [exact st_empty_result_wf|].
  exact (proj1 (empty_result_excluded st_empty_result ex_doc "x" 0
                  (mkWatched "x" (Some (mkBody false "int" "")) [])
                  (mkBody false "int" "") st_empty_result_wf
                  (or_introl eq_refl) eq_refl eq_refl eq_refl)).
Defined.

(** C10: removing (0,0)-(0,1) from [st_x] keeps its next location. *)
Lemma remove_frame_witness :
  JSMap.get (value_map st_x) "x" = Some 0 /\
  next_loc (fst (fst (remove_command st_x sel01 "x"))) = 1.
Proof.
  split; [reflexivity|].
  pose proof (remove_frame st_x sel01 "x" 0 (mkWatched "x" None [sel01]) eq_refl eq_refl) as H.
  destruct (remove_command st_x sel01 "x") as [[st' q] msg].
  exact (proj1 (proj2 (proj2 H))).
Defined.

(* ------------------------------------------------------------------ *)
(** ** Further properties of the code *)

(** *** [escapeRegExp] *)

(** The escaped expression, read as a regular expression, is the sequence
    of literal atoms that spells the expression. *)
Theorem escapeRegExp_literal (e : list ascii) :
  regex_literal_atoms (escapeRegExp e) = Some e.
Proof.
  induction e as [|c e IH]; [reflexivity|]. simpl.
  destruct (is_regex_special c) eqn:Hs.
  - simpl. rewrite Hs, IH. reflexivity.
  - simpl. destruct (Ascii.eqb c backslash) eqn:Hb.
    + apply Ascii.eqb_eq in Hb. subst c. discriminate.
    + rewrite Hs, IH. reflexivity.
Qed.

(** *** The match loop *)

Lemma ws_at_lt (s : list ascii) (i : nat) : ws_at s i = true -> i < length s.
Proof.
  unfold ws_at. destruct (nth_error s i) eqn:E; [|discriminate].
  intros _. apply nth_error_Some. congruence.
Qed.

Lemma suffix_end_le (s : list ascii) (x : nat) :
  x <= length s -> x <= suffix_end s x <= length s.
Proof.
  intros Hx. unfold suffix_end. destruct (ws_at s x) eqn:Hw.
  - apply ws_at_lt in Hw. lia.
  - destruct (boundary_at s x); [lia|].
    destruct (nth_error s x) eqn:E; [|lia].
    assert (x < length s) by (apply nth_error_Some; congruence).
    destruct (char_eqb a bar); lia.
Qed.

Lemma suffix_end_S (s : list ascii) (x : nat) : suffix_end s x <= S x.
Proof.
  unfold suffix_end. destruct (ws_at s x); [lia|]. destruct (boundary_at s x); [lia|].
  destruct (nth_error s x); [destruct (char_eqb a bar)|]; lia.
Qed.

Lemma prefix_of_length (e s : list ascii) : prefix_of e s = true -> length e <= length s.
Proof.
  revert s. induction e as [|c e IH]; intros [|d s]; simpl; try lia; try discriminate.
  intros H. apply andb_true_iff in H as [_ H]. apply IH in H. lia.
Qed.

Lemma lit_at_bound (s : list ascii) (i : nat) (e : list ascii) :
  i <= length s -> lit_at s i e = true -> i + length e <= length s.
Proof.
  unfold lit_at. intros Hi H. apply prefix_of_length in H. rewrite length_skipn in H. lia.
Qed.

Lemma match_at_spec (s e : list ascii) (i j : nat) :
  i <= length s -> match_at s e i = Some j ->
  i + length e <= j /\ j <= length s /\
  ((ws_at s i = true /\ lit_at s (S i) e = true) \/
   (boundary_at s i = true /\ lit_at s i e = true)).
Proof.
  intros Hi. unfold match_at.
  case_eq (ws_at s i && lit_at s (S i) e); intros H1.
  - intros [= <-]. apply andb_true_iff in H1 as [Hw Hl].
    pose proof (ws_at_lt _ _ Hw).
    pose proof (lit_at_bound s (S i) e ltac:(lia) Hl).
    pose proof (suffix_end_le s (S (i + length e)) ltac:(lia)).
    split; [lia|]. split; [lia|]. left. auto.
  - case_eq (boundary_at s i && lit_at s i e); intros H2; [|discriminate].
    intros [= <-]. apply andb_true_iff in H2 as [Hb Hl].
    pose proof (lit_at_bound s i e Hi Hl).
    pose proof (suffix_end_le s (i + length e) ltac:(lia)).
    split; [lia|]. split; [lia|]. right. auto.
Qed.

Lemma exec_from_spec (s e : list ascii) (i fuel a j : nat) :
  exec_from s e i fuel = Some (a, j) -> i <= a < i + fuel /\ match_at s e a = Some j.
Proof.
  revert i. induction fuel as [|fuel IH]; intros i; simpl; [discriminate|].
  destruct (match_at s e i) eqn:E.
  - intros [= <- <-]. split; [lia|exact E].
  - intros H. apply IH in H as [H1 H2]. split; [lia|exact H2].
Qed.

Lemma regex_exec_spec (s e : list ascii) (li a j : nat) :
  regex_exec s e li = Some (a, j) -> li <= a <= length s /\ match_at s e a = Some j.
Proof.
  unfold regex_exec. destruct (length s <? li) eqn:E; [discriminate|].
  apply Nat.ltb_ge in E. intros H. apply exec_from_spec in H as [H1 H2].
  split; [lia|exact H2].
Qed.

Lemma exec_from_some (s e : list ascii) (i fuel k : nat) :
  i <= k < i + fuel -> match_at s e k <> None ->
  exists a j, exec_from s e i fuel = Some (a, j) /\ a <= k.
Proof.
  revert i. induction fuel as [|fuel IH]; intros i Hk Hm; simpl; [lia|].
  destruct (match_at s e i) eqn:E.
  - exists i, n. split; [reflexivity|lia].
  - assert (i <> k) by (intros ->; contradiction). apply IH; [lia|exact Hm].
Qed.

Lemma exec_loop_shape (fuel : nat) (s e : list ascii) (li : nat) (ms : list (nat * nat)) :
  li <= length s -> exec_loop fuel s e li = Some ms ->
  Forall (fun '(i, j) => li <= i /\ i < j <= length s /\
            ((ws_at s i = true /\ lit_at s (S i) e = true) \/
             (boundary_at s i = true /\ lit_at s i e = true))) ms /\
  Sorted (fun a b => snd a <= fst b) ms.
Proof.
  revert li ms. induction fuel as [|fuel IH]; intros li ms Hli; simpl; [discriminate|].
  destruct (regex_exec s e li) as [[i j]|] eqn:Hx; [|intros [= <-]; split; constructor].
  destruct (j =? i) eqn:Hji; [discriminate|]. apply Nat.eqb_neq in Hji.
  destruct (exec_loop fuel s e j) as [ms'|] eqn:Hl; [|discriminate]. intros [= <-].
  apply regex_exec_spec in Hx as [Hai Hm]. apply match_at_spec in Hm as (H1 & H2 & H3); [|lia].
  destruct (IH j ms' ltac:(lia) Hl) as [Hf Hs].
  split.
  - constructor.
    + split; [lia|]. split; [lia|exact H3].
    + eapply Forall_impl; [exact Hf|]. intros [x y] (Hx & Hrest). split; [lia|exact Hrest].
  - constructor; [exact Hs|]. destruct ms' as [|[x y] ms'']; constructor.
    pose proof (Forall_inv Hf) as (Hxy & _). simpl. lia.
Qed.

Lemma exec_loop_total (fuel : nat) (s e : list ascii) (li : nat) :
  e <> [] -> li <= length s + 1 -> length s + 1 < li + fuel ->
  exists ms, exec_loop fuel s e li = Some ms.
Proof.
  revert li. induction fuel as [|fuel IH]; intros li He Hli Hf; [lia|]. simpl.
  destruct (regex_exec s e li) as [[i j]|] eqn:Hx; [|eexists; reflexivity].
  apply regex_exec_spec in Hx as [Hai Hm]. apply match_at_spec in Hm as (H1 & H2 & _); [|lia].
  assert (1 <= length e) by (destruct e; [congruence|simpl; lia]).
  replace (j =? i) with false by (symmetry; apply Nat.eqb_neq; lia).
  destruct (IH j He ltac:(lia) ltac:(lia)) as [ms Hms]. rewrite Hms. eexists; reflexivity.
Qed.

(** For a non-empty expression the loop ends, and every match
    [(index, end)] it yields is non-empty and within the text, and starts
    either with a white-space character followed by the expression or at a
    word boundary with the expression; the matches come in text order and
    do not overlap. *)
Theorem regex_matches_shape (s e : list ascii) :
  e <> [] ->
  exists ms, regex_matches s e = Some ms /\
  Forall (fun '(i, j) => i < j <= length s /\
            ((ws_at s i = true /\ lit_at s (S i) e = true) \/
             (boundary_at s i = true /\ lit_at s i e = true))) ms /\
  Sorted (fun a b => snd a <= fst b) ms.
Proof.
  intros He. destruct (exec_loop_total (S (S (length s))) s e 0 He ltac:(lia) ltac:(lia))
    as [ms H].
  exists ms. split; [exact H|].
  apply exec_loop_shape in H as [Hf Hs]; [|lia]. split; [|exact Hs].
  eapply Forall_impl; [exact Hf|]. intros [i j] (_ & H). exact H.
Qed.

(** The loop [while ((match = regex.exec(haystack)))] ends for every
    non-empty expression: every match is at least as long as the
    expression and moves [lastIndex] forward. *)
Theorem regex_matches_terminates (s e : list ascii) :
  e <> [] -> exists ms, regex_matches s e = Some ms.
Proof. intros He. apply exec_loop_total; [exact He|lia|lia]. Qed.

Lemma is_word_not_ws (c : ascii) : is_word c = true -> is_ws c = false.
Proof. destruct c as [[] [] [] [] [] [] [] []]; vm_compute; congruence. Qed.

Lemma word_at_not_ws (s : list ascii) (k : nat) : word_at s k = true -> ws_at s k = false.
Proof.
  unfold word_at, ws_at. destruct (nth_error s k); [apply is_word_not_ws|discriminate].
Qed.

Lemma word_at_lt (s : list ascii) (k : nat) : word_at s k = true -> k < length s.
Proof.
  unfold word_at. destruct (nth_error s k) eqn:E; [|discriminate].
  intros _. apply nth_error_Some. congruence.
Qed.

Lemma first_word (s : list ascii) (k : nat) :
  word_at s k = true ->
  exists k0, word_at s k0 = true /\ forall b, b < k0 -> word_at s b = false.
Proof.
  induction k as [k IH] using (well_founded_induction lt_wf). intros Hk.
  destruct (existsb (fun b => word_at s b) (seq 0 k)) eqn:E.
  - apply existsb_exists in E as (b & Hb & Hwb). apply in_seq in Hb.
    apply (IH b); [lia|exact Hwb].
  - exists k. split; [exact Hk|]. intros b Hb.
    destruct (word_at s b) eqn:Hw; [|reflexivity]. exfalso.
    assert (existsb (fun b => word_at s b) (seq 0 k) = true)
      by (apply existsb_exists; exists b; split; [apply in_seq; lia|exact Hw]).
    congruence.
Qed.

Lemma empty_loop_diverges (s : list ascii) (k fuel li : nat) :
  word_at s k = true -> (forall b, b < k -> word_at s b = false) -> li <= k ->
  exec_loop fuel s [] li = None.
Proof.
  intros Hk Hmin. pose proof (word_at_lt _ _ Hk) as Hkl.
  assert (Hbk : boundary_at s k = true).
  { destruct k as [|k']; simpl; [exact Hk|]. rewrite Hk, (Hmin k') by lia. reflexivity. }
  assert (Hnb : forall b, b < k -> boundary_at s b = false).
  { intros [|b'] Hb; simpl; [apply Hmin; lia|]. rewrite !Hmin by lia. reflexivity. }
  assert (Hsk : suffix_end s k = k).
  { unfold suffix_end. rewrite (word_at_not_ws _ _ Hk), Hbk. reflexivity. }
  assert (Hmk : match_at s [] k = Some k).
  { unfold match_at, lit_at. rewrite (word_at_not_ws _ _ Hk), Hbk. cbn [andb prefix_of length].
    rewrite Nat.add_0_r. exact (f_equal Some Hsk). }
  revert li. induction fuel as [|fuel IH]; intros li Hli; simpl; [reflexivity|].
  unfold regex_exec. replace (length s <? li) with false by (symmetry; apply Nat.ltb_ge; lia).
  destruct (exec_from_some s [] li (S (length s - li)) k ltac:(lia) ltac:(rewrite Hmk; discriminate))
    as (a & j & Hx & Hak).
  rewrite Hx. apply exec_from_spec in Hx as [_ Hma].
  destruct (Nat.eq_dec a k) as [->|Hne].
  - rewrite Hmk in Hma. injection Hma as <-. rewrite Nat.eqb_refl. reflexivity.
  - unfold match_at in Hma. destruct (ws_at s a) eqn:Hw.
    + cbn [andb lit_at prefix_of length] in Hma. rewrite Nat.add_0_r in Hma.
      injection Hma as <-.
      assert (suffix_end s (S a) <= k).
      { destruct (Nat.eq_dec (S a) k) as [Heq|Hne'].
        - rewrite Heq, Hsk. lia.
        - pose proof (suffix_end_S s (S a)). lia. }
      pose proof (suffix_end_le s (S a) ltac:(lia)).
      replace (suffix_end s (S a) =? a) with false by (symmetry; apply Nat.eqb_neq; lia).
      rewrite (IH (suffix_end s (S a)) ltac:(lia)). reflexivity.
    + rewrite (Hnb a ltac:(lia)) in Hma. discriminate.
Qed.

(** *** The location pass of [updateDecorators] *)

Lemma getExpressionLocations_none (doc : list ascii) (xs : list (string * WatchedValue))
  (k : string) (w : WatchedValue) :
  In (k, w) xs -> locations_of doc k w = None -> getExpressionLocations doc xs = None.
Proof.
  induction xs as [|[k' w'] xs IH]; simpl; [contradiction|].
  intros [[= -> ->]|Hin] Hn.
  - rewrite Hn. reflexivity.
  - destruct (locations_of doc k' w'); [|reflexivity]. rewrite (IH Hin Hn). reflexivity.
Qed.

Lemma entries_In (st : Store) (k : string) (l : nat) (w : WatchedValue) :
  In (k, l) (value_map st) -> heap st !! l = Some w -> In (k, w) (entries st).
Proof.
  unfold entries. induction (value_map st) as [|[k' l'] vm IH]; simpl; [contradiction|].
  intros [[= -> ->]|Hin] Hw.
  - rewrite Hw. simpl. left. reflexivity.
  - destruct (heap st !! l'); simpl; [right|]; auto.
Qed.

(** A watched expression that is the empty string, with a value and no
    explicit span, makes the decoration pass run forever on a document
    that holds a word character: the pattern [(\s|\b)(\s|\b|[|]|(|))]
    matches the empty string at the first word boundary, where [lastIndex]
    stays put. *)
Theorem empty_expression_hangs (st : Store) (doc : list ascii) (l : nat)
  (w : WatchedValue) (k : nat) :
  In (""%string, l) (value_map st) -> heap st !! l = Some w ->
  has_result w = true -> w_renderAt w = [] -> word_at doc k = true ->
  updateDecorators st doc = None.
Proof.
  intros Hin Hw Hr Hsp Hk. unfold updateDecorators.
  rewrite (getExpressionLocations_none doc _ ""%string w).
  - reflexivity.
  - apply filter_In. split; [exact (entries_In st _ l w Hin Hw)|exact Hr].
  - unfold locations_of. unfold has_result in Hr.
    destruct (w_value w) as [b|]; [|discriminate]. rewrite Hsp.
    destruct (first_word doc k Hk) as (k0 & Hk0 & Hmin).
    unfold regex_matches. cbn [list_ascii_of_string].
    rewrite (empty_loop_diverges doc k0 _ 0 Hk0 Hmin ltac:(lia)). reflexivity.
Qed.

Lemma getExpressionLocations_some (doc : list ascii) (xs : list (string * WatchedValue)) :
  (forall k w, In (k, w) xs -> k <> ""%string /\ has_result w = true) ->
  exists locs, getExpressionLocations doc xs = Some locs.
Proof.
  induction xs as [|[k w] xs IH]; simpl; intros H; [eexists; reflexivity|].
  destruct (H k w (or_introl eq_refl)) as [Hk Hr].
  assert (Hl : exists ls, locations_of doc k w = Some ls).
  { unfold locations_of. unfold has_result in Hr.
    destruct (w_value w) as [b|]; [|discriminate].
    destruct (w_renderAt w); [|eexists; reflexivity].
    destruct (exec_loop_total (S (S (length doc))) doc (list_ascii_of_string k) 0
                ltac:(destruct k; [congruence|discriminate]) ltac:(lia) ltac:(lia))
      as [ms Hms].
    unfold regex_matches. rewrite Hms. eexists; reflexivity. }
  destruct Hl as [ls ->].
  destruct IH as [ls' ->]; [intros; apply H; right; assumption|].
  eexists; reflexivity.
Qed.

(** When no watched expression is the empty string, the location pass of
    [updateDecorators] always ends and never throws: the watches without
    a value are filtered out before [watch.value!.result] is read. *)
Theorem location_pass_total (st : Store) (doc : list ascii) :
  (forall k l, In (k, l) (value_map st) -> k <> ""%string) ->
  exists locs, getExpressionLocations doc
    (List.filter (fun '(_, w) => has_result w) (entries st)) = Some locs.
Proof.
  intros Hne. apply getExpressionLocations_some. intros k w Hin.
  destruct (filtered_entry st k w Hin) as [Hr (l & Hl & _)].
  split; [exact (Hne k l Hl)|exact Hr].
Qed.

(** *** The add and remove commands *)

(** Adding the same selection twice: the second add leaves the store as
    the first one left it, and does not run [selectionToWatch]. *)
Theorem add_command_idempotent (st : Store) (sel : Range) (e : string) :
  pos_le (r_start sel) (r_end sel) = true ->
  let st1 := fst (fst (fst (add_command st sel e))) in
  fst (fst (fst (add_command st1 sel e))) = st1 /\ snd (fst (add_command st1 sel e)) = false.
Proof.
  intros Hsel. cbv zeta.
  destruct (String.eqb e "") eqn:He.
  { unfold add_command. rewrite He. split; reflexivity. }
  destruct (JSMap.get (value_map st) e) as [l|] eqn:Hg.
  - destruct (heap st !! l) as [w|] eqn:Hw.
    + set (rs := List.filter (fun r => negb (intersects r sel)) (w_renderAt w) ++ [sel]).
      assert (H1 : add_command st sel e =
        ((mkStore (<[l := set_renderAt w rs]> (heap st)) (value_map st)
                  (request_map st) (next_loc st), true), false, "Updated watch"%string)).
      { unfold add_command. rewrite He, Hg, Hw. reflexivity. }
      rewrite H1. cbn [fst snd]. unfold add_command. rewrite He. cbn [value_map heap].
      rewrite Hg, lookup_insert_eq.
      assert (Hrs : List.filter (fun r => negb (intersects r sel)) rs ++ [sel] = rs).
      { unfold rs. rewrite List.filter_app, filter_idem. cbn [List.filter].
        rewrite intersects_refl by exact Hsel. cbn [negb]. rewrite app_nil_r. reflexivity. }
      cbn [w_renderAt set_renderAt]. rewrite Hrs, insert_insert_eq. split; reflexivity.
    + assert (H1 : add_command st sel e = ((st, false), false, "Updated watch"%string)).
      { unfold add_command. rewrite He, Hg, Hw. reflexivity. }
      rewrite H1. cbn [fst snd]. rewrite H1. split; reflexivity.
  - assert (H1 : add_command st sel e =
      ((mkStore (<[next_loc st := mkWatched e None [sel]]> (heap st))
                (JSMap.set (value_map st) e (next_loc st))
                (request_map st) (S (next_loc st)), true), true, "Added watch"%string)).
    { unfold add_command. rewrite He, Hg. reflexivity. }
    rewrite H1. cbn [fst snd]. unfold add_command. rewrite He. cbn [value_map heap].
    rewrite get_set_eq, lookup_insert_eq. cbn [w_renderAt List.filter].
    rewrite intersects_refl by exact Hsel. cbn [negb app].
    rewrite insert_insert_eq. split; reflexivity.
Qed.

(** Removing the same selection twice: the second remove leaves the store
    as the first one left it. *)
Theorem remove_command_idempotent (st : Store) (sel : Range) (e : string) :
  let st1 := fst (fst (remove_command st sel e)) in
  fst (fst (remove_command st1 sel e)) = st1.
Proof.
  cbv zeta.
  destruct (String.eqb e "") eqn:He.
  { unfold remove_command. rewrite He. reflexivity. }
  destruct (JSMap.get (value_map st) e) as [l|] eqn:Hg.
  - destruct (heap st !! l) as [w|] eqn:Hw.
    + set (rs := List.filter (fun r => negb (intersects r sel)) (w_renderAt w)).
      assert (H1 : remove_command st sel e =
        ((mkStore (<[l := set_renderAt w rs]> (heap st)) (value_map st)
                  (request_map st) (next_loc st), true), "Removed watch"%string)).
      { unfold remove_command. rewrite He, Hg, Hw. reflexivity. }
      rewrite H1. cbn [fst snd]. unfold remove_command. rewrite He. cbn [value_map heap].
      rewrite Hg, lookup_insert_eq. cbn [w_renderAt set_renderAt].
      unfold rs. rewrite filter_idem, insert_insert_eq. reflexivity.
    + assert (H1 : remove_command st sel e = ((st, false), "Removed watch"%string)).
      { unfold remove_command. rewrite He, Hg, Hw. reflexivity. }
      rewrite H1. cbn [fst snd]. rewrite H1. reflexivity.
  - assert (H1 : remove_command st sel e = ((st, false), "No watch found"%string)).
    { unfold remove_command. rewrite He, Hg. reflexivity. }
    rewrite H1. cbn [fst snd]. rewrite H1. reflexivity.
Qed.

(** *** The protocol handlers *)

Section JSMapSet.
Context {K V : Type} `{EqDecision K}.

Lemma get_set_ne (m : JSMap.t K V) (k k' : K) (v : V) :
  k <> k' -> JSMap.get (JSMap.set m k v) k' = JSMap.get m k'.
Proof.
  intros Hne. induction m as [|[k0 v0] m IH]; simpl.
  - case_decide; congruence.
  - case_decide as H1; subst; simpl.
    + case_decide; [congruence|reflexivity].
    + case_decide; [reflexivity|exact IH].
Qed.

End JSMapSet.

Lemma watch_request_effect (st : Store) (m : Message) :
  m_command m = "evaluate"%string -> m_type m = "request"%string ->
  m_arg_context m = "watch"%string ->
  exists l,
    JSMap.get (value_map (fst (onWillReceiveMessage st m))) (m_arg_expression m) = Some l /\
    JSMap.get (request_map (fst (onWillReceiveMessage st m))) (m_seq m) = Some l /\
    (forall s, s <> m_seq m ->
       JSMap.get (request_map (fst (onWillReceiveMessage st m))) s =
       JSMap.get (request_map st) s) /\
    (forall l0, JSMap.get (value_map st) (m_arg_expression m) = Some l0 ->
       l = l0 /\ value_map (fst (onWillReceiveMessage st m)) = value_map st).
Proof.
  intros Hc Ht Hx. unfold onWillReceiveMessage. rewrite Hc, Ht, Hx.
  assert (E1 : String.eqb "evaluate" "next" = false) by reflexivity.
  assert (E2 : (String.eqb "evaluate" "evaluate" && String.eqb "request" "request"
                && String.eqb "watch" "watch")%bool = true) by reflexivity.
  rewrite E1, E2.
  destruct (JSMap.get (value_map st) (m_arg_expression m)) as [l|] eqn:Hg; cbn [fst value_map request_map].
  - exists l. split; [exact Hg|]. split; [apply get_set_eq|]. split.
    + intros s Hs. apply get_set_ne. congruence.
    + intros l0 [= ->]. auto.
  - exists (next_loc st). split; [apply get_set_eq|]. split; [apply get_set_eq|]. split.
    + intros s Hs. apply get_set_ne. congruence.
    + intros l0 [=].
Qed.

(** A watch-view [evaluate] request followed by its error-free response:
    the watch held under the request's expression ends with the response
    body as its value, whether the request created the watch or found it. *)
Theorem watch_request_then_response (st : Store) (m r : Message) (b : Body) :
  store_wf st ->
  m_command m = "evaluate"%string -> m_type m = "request"%string ->
  m_arg_context m = "watch"%string ->
  m_type r = "response"%string -> m_command r = "evaluate"%string ->
  m_request_seq r = m_seq m -> m_body r = Some b -> b_error b = false ->
  exists st2 l w,
    onDidSendMessage (fst (onWillReceiveMessage st m)) r = Some (st2, true) /\
    JSMap.get (value_map st2) (m_arg_expression m) = Some l /\
    heap st2 !! l = Some w /\ w_expression w = m_arg_expression m /\ w_value w = Some b.
Proof.
  intros Hwf Hc Ht Hx Hrt Hrc Hseq Hb Herr.
  unfold onWillReceiveMessage. rewrite Hc, Ht, Hx.
  assert (E1 : String.eqb "evaluate" "next" = false) by reflexivity.
  assert (E2 : (String.eqb "evaluate" "evaluate" && String.eqb "request" "request"
                && String.eqb "watch" "watch")%bool = true) by reflexivity.
  assert (E3 : (String.eqb "response" "response" && String.eqb "evaluate" "evaluate")%bool = true)
    by reflexivity.
  rewrite E1, E2.
  unfold onDidSendMessage. rewrite Hrt, Hrc, E3, Hb, Hseq.
  destruct (JSMap.get (value_map st) (m_arg_expression m)) as [l|] eqn:Hg;
    cbn [fst heap value_map request_map next_loc].
  - destruct (wf_value_entry st _ l Hwf Hg) as (w & Hw & Hwe).
    rewrite get_set_eq, Hw. cbv beta iota. rewrite Herr.
    do 3 eexists. split; [reflexivity|]. cbn [value_map heap].
    rewrite Hg, lookup_insert_eq. split; [reflexivity|]. split; [reflexivity|].
    split; [exact Hwe|reflexivity].
  - rewrite get_set_eq, lookup_insert_eq. cbv beta iota. rewrite Herr.
    do 3 eexists. split; [reflexivity|]. cbn [value_map heap].
    rewrite get_set_eq, lookup_insert_eq. split; [reflexivity|]. split; [reflexivity|].
    split; reflexivity.
Qed.

(** Two watch-view [evaluate] requests for the same expression register
    both sequence numbers to the one object held under the expression, so
    a response to either sets the value of that watch. *)
Theorem watch_requests_share_object (st : Store) (m1 m2 : Message) :
  m_command m1 = "evaluate"%string -> m_type m1 = "request"%string ->
  m_arg_context m1 = "watch"%string ->
  m_command m2 = "evaluate"%string -> m_type m2 = "request"%string ->
  m_arg_context m2 = "watch"%string ->
  m_arg_expression m1 = m_arg_expression m2 -> m_seq m1 <> m_seq m2 ->
  exists l,
    JSMap.get (value_map (fst (onWillReceiveMessage (fst (onWillReceiveMessage st m1)) m2)))
      (m_arg_expression m1) = Some l /\
    JSMap.get (request_map (fst (onWillReceiveMessage (fst (onWillReceiveMessage st m1)) m2)))
      (m_seq m1) = Some l /\
    JSMap.get (request_map (fst (onWillReceiveMessage (fst (onWillReceiveMessage st m1)) m2)))
      (m_seq m2) = Some l.
Proof.
  intros Hc1 Ht1 Hx1 Hc2 Ht2 Hx2 He Hs.
  destruct (watch_request_effect st m1 Hc1 Ht1 Hx1) as (l1 & Hv1 & Hr1 & _ & _).
  destruct (watch_request_effect (fst (onWillReceiveMessage st m1)) m2 Hc2 Ht2 Hx2)
    as (l2 & Hv2 & Hr2 & Hkeep & Hsame).
  rewrite He in Hv1. destruct (Hsame l1 Hv1) as [-> Hvm].
  exists l1. rewrite He. split; [exact Hv2|]. split; [|exact Hr2].
  rewrite (Hkeep (m_seq m1) Hs). exact Hr1.
Qed.

(** *** The debounced update *)

(** Liveness of [debounce]: after a call, once at least the quiet period
    has passed with no other call, the timer that call started fires and
    runs the function, and no timer is left pending. *)
Theorem debounce_runs_after_quiet (ms d : nat) (st : Debounce.Timers)
  (log : list (nat * Debounce.Act)) :
  Debounce.reach ms st log -> ms <= d ->
  exists st1 st2 st3,
    Debounce.step ms st Debounce.Call = Some (st1, [(Debounce.now st, Debounce.Trig)]) /\
    Debounce.step ms st1 (Debounce.Advance d) = Some (st2, []) /\
    Debounce.step ms st2 (Debounce.FireTimer (Debounce.next_id st)) =
      Some (st3, [(Debounce.now st + d, Debounce.Run)]) /\
    Debounce.pending st3 = [].
Proof.
  intros Hreach Hd. destruct (DebounceFacts.inv_reach ms st log Hreach) as (Hp & _).
  assert (Hcl : Debounce.clearTimeout (Debounce.pending st) (Debounce.timeout st) = []).
  { destruct Hp as [(-> & _)|(id & t & pre & -> & -> & _)].
    - destruct (Debounce.timeout st); reflexivity.
    - simpl. rewrite Nat.eqb_refl. reflexivity. }
  set (id := Debounce.next_id st).
  exists (Debounce.mkTimers (Debounce.now st) [(id, Debounce.now st + ms)] (S id) (Some id)),
         (Debounce.mkTimers (Debounce.now st + d) [(id, Debounce.now st + ms)] (S id) (Some id)),
         (Debounce.mkTimers (Debounce.now st + d) [] (S id) (Some id)).
  split; [unfold Debounce.step; rewrite Hcl; reflexivity|].
  split; [reflexivity|].
  split; [|reflexivity].
  unfold Debounce.step. cbn [Debounce.pending Debounce.now Debounce.deadline_of].
  rewrite Nat.eqb_refl.
  replace (Debounce.now st + ms <=? Debounce.now st + d) with true
    by (symmetry; apply Nat.leb_le; lia).
  cbn [List.filter]. rewrite Nat.eqb_refl. reflexivity.
Qed.

(* ------------------------------------------------------------------ *)
(** ** Witnesses of the further properties *)

Lemma regex_matches_shape_witness :
  list_ascii_of_string "x" <> [] /\
  regex_matches ex_doc (list_ascii_of_string "x") = Some [(0, 2); (9, 12)] /\
  exists ms, regex_matches ex_doc (list_ascii_of_string "x") = Some ms /\
    Sorted (fun a b => snd a <= fst b) ms.
Proof.
  split; [simpl; discriminate|]. split; [vm_compute; reflexivity|].
  destruct (regex_matches_shape ex_doc (list_ascii_of_string "x") ltac:(simpl; discriminate))
    as (ms & H & _ & Hs).
  exists ms. split; [exact H|exact Hs].
Defined.

Lemma regex_matches_terminates_witness :
  list_ascii_of_string "x" <> [] /\
  exists ms, regex_matches ex_doc (list_ascii_of_string "x") = Some ms.
Proof.
  split; [simpl; discriminate|].
  exact (regex_matches_terminates ex_doc (list_ascii_of_string "x") ltac:(simpl; discriminate)).
Defined.

Lemma empty_expression_hangs_witness :
  word_at ex_doc 0 = true /\ updateDecorators st_empty_expr ex_doc = None.
Proof.
  split; [vm_compute; reflexivity|].
  exact (empty_expression_hangs st_empty_expr ex_doc 0
           (mkWatched "" (Some (mkBody false "int" "1")) []) 0
           (or_introl eq_refl) ltac:(vm_compute; reflexivity) ltac:(vm_compute; reflexivity)
           eq_refl ltac:(vm_compute; reflexivity)).
Defined.

Lemma location_pass_total_witness :
  (forall k l, In (k, l) (value_map ex_store) -> k <> ""%string) /\
  exists locs, getExpressionLocations ex_doc
    (List.filter (fun '(_, w) => has_result w) (entries ex_store)) = Some locs.
Proof.
  assert (H : forall k l, In (k, l) (value_map ex_store) -> k <> ""%string).
  { intros k l [[= <- _]|[]]. discriminate. }
  split; [exact H|]. exact (location_pass_total ex_store ex_doc H).
Defined.

Lemma add_command_idempotent_witness :
  pos_le (r_start sel01) (r_end sel01) = true /\
  fst (fst (fst (add_command (fst (fst (fst (add_command st_x sel01 "x")))) sel01 "x"))) =
  fst (fst (fst (add_command st_x sel01 "x"))).
Proof.
  split; [reflexivity|]. exact (proj1 (add_command_idempotent st_x sel01 "x" eq_refl)).
Defined.

Lemma watch_request_then_response_witness :
  store_wf st_x /\
  exists st2 l w,
    onDidSendMessage (fst (onWillReceiveMessage st_x msg_eval_x)) resp_x = Some (st2, true) /\
    JSMap.get (value_map st2) "x"%string = Some l /\
    heap st2 !! l = Some w /\ w_expression w = "x"%string /\
    w_value w = Some (mkBody false "int" "1").
Proof.
  split; [exact st_x_wf|].
  exact (watch_request_then_response st_x msg_eval_x resp_x (mkBody false "int" "1") st_x_wf
           eq_refl eq_refl eq_refl eq_refl eq_refl eq_refl eq_refl eq_refl).
Defined.

Lemma watch_requests_share_object_witness :
  m_seq msg_eval_x <> m_seq msg_eval_x2 /\
  exists l,
    JSMap.get (value_map (fst (onWillReceiveMessage
                 (fst (onWillReceiveMessage empty_store msg_eval_x)) msg_eval_x2))) "x"%string
      = Some l /\
    JSMap.get (request_map (fst (onWillReceiveMessage
                 (fst (onWillReceiveMessage empty_store msg_eval_x)) msg_eval_x2))) 7%Z = Some l /\
    JSMap.get (request_map (fst (onWillReceiveMessage
                 (fst (onWillReceiveMessage empty_store msg_eval_x)) msg_eval_x2))) 10%Z = Some l.
Proof.
  split; [discriminate|].
  exact (watch_requests_share_object empty_store msg_eval_x msg_eval_x2
           eq_refl eq_refl eq_refl eq_refl eq_refl eq_refl eq_refl ltac:(discriminate)).
Defined.

Lemma debounce_runs_after_quiet_witness :
  Debounce.reach 500 Debounce.init [] /\
  exists st1, Debounce.step 500 Debounce.init Debounce.Call = Some (st1, [(0, Debounce.Trig)]).
Proof.
  split; [apply Debounce.reach_init|].
  destruct (debounce_runs_after_quiet 500 500 Debounce.init [] (Debounce.reach_init 500)
              ltac:(lia)) as (st1 & _ & _ & H1 & _).
  exists st1. exact H1.
Defined.
